(** * Junk-Cleaner: the scan / match / delete core of [cleaner.py]

    A shallow embedding of class [Core] of [src/cleaner.py] and of the
    rule table [JUNK_FILES], with the properties the specification
    states about them.

    Conventions of the embedding.
    - A Python [str] is a [string] (a byte string); [str.lower] acts on
      the ASCII letters, bytes above 127 are left alone.
    - A [pathlib.Path] is the list of its components below the root of
      the modelled file system; [str(path)] is one-to-one on such lists
      and is not modelled apart from them.
    - A Python [int] is a [Z] (no wrap-around), a Python [float] is a
      primitive binary64 [float].
    - A call that may raise returns a [result]; [try/except] is a match
      on it.
    - [threading.Event.is_set()] read by a worker is an oracle
      [nat -> bool]: the value seen by the worker at its k-th check.
    - [queue.Queue.put] appends to the list of messages. *)

From Stdlib Require Import ZArith Ascii String List Bool Lia DecimalString.
From Stdlib Require Import Floats.PrimFloat Floats.SpecFloat Floats.FloatOps.
From stdpp Require Import base gmap strings list sorting.

Local Open Scope Z_scope.
Local Open Scope string_scope.
Local Open Scope list_scope.

(** ** Strings *)

Module Str.

(** [c.lower()] on one character. *)
Definition lower_ascii (c : ascii) : ascii :=
  let n := N_of_ascii c in
  if ((65 <=? n)%N && (n <=? 90)%N)%bool then ascii_of_N (n + 32) else c.

(** [s.lower()]. *)
Fixpoint lower (s : string) : string :=
  match s with
  | EmptyString => EmptyString
  | String c s' => String (lower_ascii c) (lower s')
  end.

Definition chars (s : string) : list ascii := list_ascii_of_string s.

Lemma lower_ascii_idem c : lower_ascii (lower_ascii c) = lower_ascii c.
Proof. destruct c as [[] [] [] [] [] [] [] []]; reflexivity. Qed.

Lemma lower_idem s : lower (lower s) = lower s.
Proof. induction s as [|c s IH]; simpl; [reflexivity|]. now rewrite lower_ascii_idem, IH. Qed.

Lemma chars_lower s : chars (lower s) = List.map lower_ascii (chars s).
Proof. unfold chars. induction s as [|c s IH]; simpl; congruence. Qed.

Lemma lower_length s : String.length (lower s) = String.length s.
Proof. induction s as [|c s IH]; simpl; congruence. Qed.

End Str.

(** ** Regular expressions

    The fragment of [re] that the rule table uses: literal characters,
    [.], concatenation, alternation and [*], with the flag
    [re.IGNORECASE].  [pattern.search(s)] is decided with Brzozowski
    derivatives; [lang] is the set of words a pattern denotes. *)

Module Re.
Import Str.

Inductive regex : Type :=
| Void
| Eps
| Chr (a : ascii)
| Dot
| Cat (r1 r2 : regex)
| Alt (r1 r2 : regex)
| Star (r : regex).

(** A literal [a] of the pattern against the character [c] of the
    subject; under [re.IGNORECASE] both are lower-cased first. *)
Definition chr_eq (ic : bool) (a c : ascii) : bool :=
  if ic then Ascii.eqb (lower_ascii a) (lower_ascii c) else Ascii.eqb a c.

(** [.] matches every character but the newline. *)
Definition dot_ok (c : ascii) : bool := negb (Ascii.eqb c "010"%char).

Fixpoint nullable (r : regex) : bool :=
  match r with
  | Void | Chr _ | Dot => false
  | Eps | Star _ => true
  | Cat r1 r2 => nullable r1 && nullable r2
  | Alt r1 r2 => nullable r1 || nullable r2
  end.

Fixpoint deriv (ic : bool) (c : ascii) (r : regex) : regex :=
  match r with
  | Void | Eps => Void
  | Chr a => if chr_eq ic a c then Eps else Void
  | Dot => if dot_ok c then Eps else Void
  | Cat r1 r2 =>
      if nullable r1 then Alt (Cat (deriv ic c r1) r2) (deriv ic c r2)
      else Cat (deriv ic c r1) r2
  | Alt r1 r2 => Alt (deriv ic c r1) (deriv ic c r2)
  | Star r1 => Cat (deriv ic c r1) (Star r1)
  end.

(** Some prefix of [s] is matched by [r]: [pattern.match(s)]. *)
Fixpoint match_prefix (ic : bool) (r : regex) (s : list ascii) : bool :=
  nullable r ||
  match s with
  | [] => false
  | c :: s' => match_prefix ic (deriv ic c r) s'
  end.

(** [bool(pattern.search(s))]: the pattern is tried at every position. *)
Fixpoint search (ic : bool) (r : regex) (s : list ascii) : bool :=
  match_prefix ic r s ||
  match s with
  | [] => false
  | _ :: s' => search ic r s'
  end.

(** The words of a pattern. *)
Inductive lang (ic : bool) : regex -> list ascii -> Prop :=
| LEps : lang ic Eps []
| LChr a c : chr_eq ic a c = true -> lang ic (Chr a) [c]
| LDot c : dot_ok c = true -> lang ic Dot [c]
| LCat r1 r2 s1 s2 : lang ic r1 s1 -> lang ic r2 s2 -> lang ic (Cat r1 r2) (s1 ++ s2)
| LAltL r1 r2 s : lang ic r1 s -> lang ic (Alt r1 r2) s
| LAltR r1 r2 s : lang ic r2 s -> lang ic (Alt r1 r2) s
| LStar0 r : lang ic (Star r) []
| LStarS r s1 s2 : lang ic r s1 -> lang ic (Star r) s2 -> lang ic (Star r) (s1 ++ s2).

(** The pattern is found anywhere in the subject. *)
Definition found_anywhere (ic : bool) (r : regex) (s : list ascii) : Prop :=
  exists pre mid post, s = pre ++ mid ++ post /\ lang ic r mid.

(** A literal word as a pattern. *)
Fixpoint word (s : string) : regex :=
  match s with
  | EmptyString => Eps
  | String a s' => Cat (Chr a) (word s')
  end.

(** *** The derivative matcher decides [lang] *)

Lemma lang_nil_nullable ic r s : lang ic r s -> s = [] -> nullable r = true.
Proof.
  induction 1 as [ | | |r1 r2 s1 s2 _ IH1 _ IH2|r1 r2 s _ IH|r1 r2 s _ IH| | ];
    intros E; simpl; try discriminate; try reflexivity.
  - apply app_eq_nil in E as [E1 E2]. now rewrite IH1, IH2.
  - now rewrite IH.
  - rewrite IH by assumption. apply orb_true_r.
Qed.

Lemma nullable_lang ic r : nullable r = true <-> lang ic r [].
Proof.
  split; [|intros H; now apply (lang_nil_nullable ic r [])].
  induction r as [ | | | |r1 IH1 r2 IH2|r1 IH1 r2 IH2|r1 IH1]; simpl; intros N;
    try discriminate.
  - constructor.
  - apply andb_true_iff in N as [N1 N2].
    change (@nil ascii) with (@nil ascii ++ []). constructor; auto.
  - apply orb_true_iff in N as [N|N]; [apply LAltL|apply LAltR]; auto.
  - constructor.
Qed.

Lemma deriv_sound ic c r : forall s, lang ic (deriv ic c r) s -> lang ic r (c :: s).
Proof.
  induction r as [ | |a| |r1 IH1 r2 IH2|r1 IH1 r2 IH2|r1 IH1]; simpl; intros s H.
  - inversion H.
  - inversion H.
  - destruct (chr_eq ic a c) eqn:E; inversion H; subst. now constructor.
  - destruct (dot_ok c) eqn:E; inversion H; subst. now constructor.
  - assert (Hcat : forall t, lang ic (Cat (deriv ic c r1) r2) t -> lang ic (Cat r1 r2) (c :: t)).
    { intros t Ht. inversion Ht as [ | | |? ? s1 s2 H1 H2| | | | ]; subst.
      change (c :: s1 ++ s2) with ((c :: s1) ++ s2). constructor; auto. }
    destruct (nullable r1) eqn:N; [|now apply Hcat].
    inversion H as [ | | | |? ? ? HL|? ? ? HR| | ]; subst; [now apply Hcat|].
    change (c :: s) with ([] ++ c :: s). constructor; [|now apply IH2].
    now apply nullable_lang.
  - inversion H; subst; [apply LAltL|apply LAltR]; auto.
  - inversion H as [ | | |? ? s1 s2 H1 H2| | | | ]; subst.
    change (c :: s1 ++ s2) with ((c :: s1) ++ s2). constructor; auto.
Qed.

Lemma deriv_complete ic r s' :
  lang ic r s' -> forall c s, s' = c :: s -> lang ic (deriv ic c r) s.
Proof.
  induction 1 as [ |a c' E|c' E|r1 r2 s1 s2 H1 IH1 H2 IH2|r1 r2 s0 _ IH|r1 r2 s0 _ IH
                 | |r1 s1 s2 H1 IH1 H2 IH2]; intros c s Eq; simpl; try discriminate.
  - injection Eq as -> <-. rewrite E. constructor.
  - injection Eq as -> <-. rewrite E. constructor.
  - destruct s1 as [|c1 s1]; simpl in Eq.
    + rewrite (lang_nil_nullable ic r1 [] H1 eq_refl). apply LAltR. now apply IH2.
    + injection Eq as -> <-.
      assert (lang ic (Cat (deriv ic c r1) r2) (s1 ++ s2)) by (constructor; auto).
      destruct (nullable r1); [now apply LAltL|assumption].
  - apply LAltL. now apply IH.
  - apply LAltR. now apply IH.
  - destruct s1 as [|c1 s1]; simpl in Eq.
    + now apply IH2.
    + injection Eq as -> <-. constructor; auto.
Qed.

Lemma match_prefix_spec ic s : forall r,
  match_prefix ic r s = true <-> exists s1 s2, s = s1 ++ s2 /\ lang ic r s1.
Proof.
  induction s as [|c s IH]; intros r; simpl; rewrite orb_true_iff.
  - split.
    + intros [N|N]; [|discriminate]. exists [], []. split; [reflexivity|now apply nullable_lang].
    + intros (s1 & s2 & E & L). symmetry in E. apply app_eq_nil in E as [-> _].
      left. now apply (nullable_lang ic).
  - rewrite IH. split.
    + intros [N|(s1 & s2 & -> & L)].
      * exists [], (c :: s). split; [reflexivity|now apply nullable_lang].
      * exists (c :: s1), s2. split; [reflexivity|now apply deriv_sound].
    + intros (s1 & s2 & E & L). destruct s1 as [|c1 s1]; simpl in E.
      * left. now apply (nullable_lang ic).
      * injection E as <- ->. right. exists s1, s2. split; [reflexivity|].
        now apply (deriv_complete ic r (c :: s1)).
Qed.

Lemma search_nil ic r : search ic r [] = match_prefix ic r [] || false.
Proof. reflexivity. Qed.

Lemma search_cons ic r c s : search ic r (c :: s) = match_prefix ic r (c :: s) || search ic r s.
Proof. reflexivity. Qed.

Lemma search_spec ic r s : search ic r s = true <-> found_anywhere ic r s.
Proof.
  unfold found_anywhere. induction s as [|c s IH].
  - rewrite search_nil, orb_false_r, match_prefix_spec. split.
    + intros (s1 & s2 & E & L). exists [], s1, s2. now split.
    + intros (pre & mid & post & E & L).
      symmetry in E. apply app_eq_nil in E as [-> E]. exists mid, post. now split.
  - rewrite search_cons, orb_true_iff, IH, match_prefix_spec. split.
    + intros [(s1 & s2 & E & L)|(pre & mid & post & -> & L)].
      * exists [], s1, s2. now split.
      * exists (c :: pre), mid, post. now split.
    + intros (pre & mid & post & E & L). destruct pre as [|c1 pre]; simpl in E.
      * left. exists mid, post. now split.
      * injection E as <- ->. right. exists pre, mid, post. now split.
Qed.

(** *** Lower-casing the subject does not change a case-insensitive search *)

Lemma chr_eq_lower a c : chr_eq true a (lower_ascii c) = chr_eq true a c.
Proof. unfold chr_eq. now rewrite lower_ascii_idem. Qed.

Lemma dot_ok_lower c : dot_ok (lower_ascii c) = dot_ok c.
Proof. destruct c as [[] [] [] [] [] [] [] []]; reflexivity. Qed.

Lemma deriv_lower c r : deriv true (lower_ascii c) r = deriv true c r.
Proof.
  induction r as [ | |a| |r1 IH1 r2 IH2|r1 IH1 r2 IH2|r1 IH1]; cbn [deriv];
    rewrite ?chr_eq_lower, ?dot_ok_lower, ?IH1, ?IH2; reflexivity.
Qed.

Lemma match_prefix_lower s : forall r,
  match_prefix true r (List.map lower_ascii s) = match_prefix true r s.
Proof. induction s as [|c s IH]; intros r; simpl; [reflexivity|]. now rewrite deriv_lower, IH. Qed.

Lemma search_lower r s : search true r (List.map lower_ascii s) = search true r s.
Proof.
  induction s as [|c s IH].
  - reflexivity.
  - change (List.map lower_ascii (c :: s)) with (lower_ascii c :: List.map lower_ascii s).
    rewrite !search_cons, IH. f_equal. apply (match_prefix_lower (c :: s)).
Qed.

End Re.

(** ** The rule table and the matcher *)

Module Matcher.
Import Str Re.

(** An element of a rule tuple: a [str], or a pattern compiled by
    [re.compile(p)] ([ignorecase = false]) or
    [re.compile(p, re.IGNORECASE)] ([ignorecase = true]). *)
Inductive pattern : Type :=
| PStr (s : string)
| PRe (r : regex) (ignorecase : bool).

(** The dictionary [JUNK_FILES]: its three tuples. *)
Record rule_table : Type := {
  names : list pattern;
  extensions : list string;
  folders : list pattern
}.

(** [re.compile(r"\.zcompdump-.*")] *)
Definition zcompdump : regex := Cat (word ".zcompdump-") (Star Dot).

Definition JUNK_FILES : rule_table := {|
  names :=
    [ PStr ".DS_Store"; PStr "desktop.ini"; PStr "Thumbs.db"; PStr ".bash_history";
      PStr ".zsh_history"; PStr "fish_history"; PStr ".viminfo"; PStr ".localized";
      PStr ".sharkgi"; PStr ".lesshst"; PStr ".python_history"; PRe zcompdump false ];
  extensions := [ ".log"; ".tmp"; "temp"; ".cache" ];
  folders :=
    [ PStr "$RECYCLE.BIN"; PStr "Logs"; PStr "CrashReporter"; PStr "tmp"; PStr "temp";
      PStr "log"; PStr "logs"; PStr ".Trash"; PStr ".fseventsd"; PStr ".Spotlight-V100";
      PStr ".zsh_sessions"; PStr "System Volume Information"; PStr "Photo Booth Library";
      PStr "Automatically Add to Music.localized"; PStr "Media.localized";
      PStr "Videos Library.tvlibrary"; PStr "网易云音乐"; PRe (word "Cache") true ]
|}.

(** Python truthiness, the filter [if pattern] of the generator: the
    empty string is false, a compiled pattern is an object and true. *)
Definition truthy (p : pattern) : bool :=
  match p with
  | PStr s => negb (String.eqb s "")
  | PRe _ _ => true
  end.

(** [matches_patterns], the inner function of [Core.scanner]. *)
Definition matches_patterns (filename : string) (patterns : list pattern) : bool :=
  let filename := lower filename in
  existsb
    (fun pattern =>
       match pattern with
       | PStr s => String.eqb (lower s) filename
       | PRe r ic => search ic r (chars filename)
       end)
    (List.filter truthy patterns).





(** The matcher on a few names. *)
Example matches_ds_store : matches_patterns ".ds_store" (names JUNK_FILES) = true.
Proof. reflexivity. Qed.

Example matches_zcompdump_upper : matches_patterns ".ZCOMPDUMP-host" (names JUNK_FILES) = true.
Proof. reflexivity. Qed.

Example matches_cache_inside : matches_patterns "MyCacheDir" (folders JUNK_FILES) = true.
Proof. reflexivity. Qed.

Example matches_not_substring : matches_patterns "catalogs" (folders JUNK_FILES) = false.
Proof. reflexivity. Qed.

Example matches_skips_empty_rule : matches_patterns "" [PStr ""] = false.
Proof. reflexivity. Qed.

End Matcher.

(** ** Exceptions and state

    [result] is the outcome of a call that may raise [OSError];
    [M S A] is a computation over a mutable state [S] that may raise:
    the state reached when it raises is kept, as the handler of a
    Python [try] sees it. *)

Module Exc.

Definition path : Type := list string.

(** The subclasses of [OSError] the file system raises. *)
Inductive OSError : Type :=
| FileNotFoundError (p : path)
| PermissionError (p : path)
| IsADirectoryError (p : path).

Inductive result (A : Type) : Type :=
| Ok (a : A)
| Raise (e : OSError).
Arguments Ok {A} a.
Arguments Raise {A} e.

Definition M (S A : Type) : Type := S -> result A * S.

Definition ret {S A} (a : A) : M S A := fun s => (Ok a, s).

Definition bind {S A B} (m : M S A) (k : A -> M S B) : M S B :=
  fun s =>
    match m s with
    | (Ok a, s') => k a s'
    | (Raise e, s') => (Raise e, s')
    end.

(** A call that raises or returns and leaves the state alone. *)
Definition lift {S A} (r : result A) : M S A := fun s => (r, s).

Definition gets {S A} (f : S -> A) : M S A := fun s => (Ok (f s), s).

Definition modify {S} (f : S -> S) : M S unit := fun s => (Ok tt, f s).

(** [try: body except (OSError, PermissionError) as e: handler(e)]. *)
Definition try_except {S A} (body : M S A) (handler : OSError -> M S A) : M S A :=
  fun s =>
    match body s with
    | (Ok a, s') => (Ok a, s')
    | (Raise e, s') => handler e s'
    end.

End Exc.

Notation "x <- m ;; k" := (Exc.bind m (fun x => k))
  (at level 100, m at next level, right associativity).
Notation "m ;;; k" := (Exc.bind m (fun _ => k))
  (at level 100, right associativity).

(** ** The file system

    The provider the engine consumes: a tree of regular files and
    directories.  An entry carries its size and modification time and
    two conditions the operating system may impose: [stat_denied]
    ([os.stat] on the entry fails with [PermissionError]) and [locked]
    (removing the entry fails with [PermissionError]).  Symbolic links
    are not modelled, and the tree does not change during a scan. *)

Module Fs.
Export Exc.

Record attrs : Type := {
  size : Z;
  mtime : Z;
  stat_denied : bool;
  locked : bool
}.

Local Unset Elimination Schemes.
Inductive node : Type :=
| File (a : attrs)
| Dir (a : attrs) (entries : list (string * node)).
Local Set Elimination Schemes.

(** Induction on a tree, with the hypothesis for every entry of a
    directory. *)
Section node_induction.
Variable P : node -> Prop.
Hypothesis HFile : forall a, P (File a).
Hypothesis HDir : forall a es, Forall (fun e => P (snd e)) es -> P (Dir a es).

Fixpoint node_ind (n : node) : P n :=
  match n with
  | File a => HFile a
  | Dir a es =>
      HDir a es
        ((fix entries_ind (es : list (string * node)) : Forall (fun e => P (snd e)) es :=
            match es with
            | [] => @List.Forall_nil _ _
            | e :: es' => @List.Forall_cons _ _ e es' (node_ind (snd e)) (entries_ind es')
            end) es)
  end.
End node_induction.

Definition attrs_of (n : node) : attrs :=
  match n with File a => a | Dir a _ => a end.

Definition entries_of (n : node) : list (string * node) :=
  match n with File _ => [] | Dir _ es => es end.

(** The entry called [c] in a listing: the first one of that name. *)
Fixpoint assoc (c : string) (es : list (string * node)) : option node :=
  match es with
  | [] => None
  | e :: es' => if String.eqb (fst e) c then Some (snd e) else assoc c es'
  end.

(** Path resolution from the root [n]. *)
Fixpoint lookup (n : node) (p : path) : option node :=
  match p with
  | [] => Some n
  | c :: p' =>
      match assoc c (entries_of n) with
      | Some n' => lookup n' p'
      | None => None
      end
  end.

Inductive mode : Type := S_IFREG | S_IFDIR.

Record stat_result : Type := {
  st_mode : mode;
  st_size : Z;
  st_mtime : Z
}.

Definition stat_of (n : node) : stat_result :=
  {| st_mode := match n with File _ => S_IFREG | Dir _ _ => S_IFDIR end;
     st_size := size (attrs_of n);
     st_mtime := mtime (attrs_of n) |}.

(** [path.stat()] *)
Definition stat (fs : node) (p : path) : result stat_result :=
  match lookup fs p with
  | None => Raise (FileNotFoundError p)
  | Some n => if stat_denied (attrs_of n) then Raise (PermissionError p) else Ok (stat_of n)
  end.

(** pathlib's [_ignore_error]: the errors [exists], [is_dir] and
    [is_file] turn into [False] (ENOENT and its kin); any other
    [OSError] is raised again. *)
Definition ignore_error (e : OSError) : bool :=
  match e with
  | FileNotFoundError _ => true
  | _ => false
  end.

Definition stat_test (test : stat_result -> bool) (fs : node) (p : path) : result bool :=
  match stat fs p with
  | Ok s => Ok (test s)
  | Raise e => if ignore_error e then Ok false else Raise e
  end.

(** [path.exists()], [path.is_dir()], [path.is_file()] *)
Definition exists_ : node -> path -> result bool := stat_test (fun _ => true).

Definition is_dir : node -> path -> result bool :=
  stat_test (fun s => match st_mode s with S_IFDIR => true | S_IFREG => false end).

Definition is_file : node -> path -> result bool :=
  stat_test (fun s => match st_mode s with S_IFREG => true | S_IFDIR => false end).

(** [path.name]: the last component. *)
Definition name (p : path) : string := List.last p "".

(** [name.rfind(".")] *)
Fixpoint rfind_dot (s : string) : option nat :=
  match s with
  | EmptyString => None
  | String c s' =>
      match rfind_dot s' with
      | Some i => Some (S i)
      | None => if Ascii.eqb c "."%char then Some O else None
      end
  end.

(** [path.suffix]: [name[i:]] for [i = name.rfind(".")] when
    [0 < i < len(name) - 1], and the empty string otherwise. *)
Definition suffix (p : path) : string :=
  let n := name p in
  match rfind_dot n with
  | Some i =>
      if ((0 <? i)%nat && (i <? String.length n - 1)%nat)%bool
      then String.substring i (String.length n - i) n
      else ""
  | None => ""
  end.

(** [path.parents]: the proper ancestors, the nearest first. *)
Fixpoint strict_prefixes (p : path) : list path :=
  match p with
  | [] => []
  | c :: p' => [] :: List.map (cons c) (strict_prefixes p')
  end.

Definition parents (p : path) : list path := List.rev (strict_prefixes p).

(** [path.rglob("*")] below the directory [n] at path [p]: the entries
    of [n], then what is below each of them in turn (the order of
    pathlib's recursive wildcard selector: every listing before the
    listings of its sub-directories). *)
Fixpoint rglob_node (p : path) (n : node) : list path :=
  match n with
  | File _ => []
  | Dir _ es =>
      List.map (fun e => p ++ [fst e]) es ++
      List.flat_map (fun e => rglob_node (p ++ [fst e]) (snd e)) es
  end.

Definition rglob (fs : node) (p : path) : list path :=
  match lookup fs p with
  | Some n => rglob_node p n
  | None => []
  end.

(** What [path.unlink()] and [shutil.rmtree] leave of an entry:
    [alter f p n] replaces the entry at [p] by [f] of it, or drops it
    when [f] answers [None].  The root itself is never dropped. *)
Fixpoint alter (f : node -> option node) (p : path) (n : node) : node :=
  match p with
  | [] => n
  | c :: p' =>
      match n with
      | File _ => n
      | Dir a es =>
          Dir a
            (omap
               (fun e =>
                  if String.eqb (fst e) c then
                    match p' with
                    | [] => option_map (pair (fst e)) (f (snd e))
                    | _ => Some (fst e, alter f p' (snd e))
                    end
                  else Some e)
               es)
      end
  end.

(** [path.unlink()] *)
Definition unlink (fs : node) (p : path) : result node :=
  match lookup fs p with
  | None => Raise (FileNotFoundError p)
  | Some (Dir _ _) => Raise (IsADirectoryError p)
  | Some (File a) =>
      if locked a then Raise (PermissionError p) else Ok (alter (fun _ => None) p fs)
  end.

(** What [shutil.rmtree(_, ignore_errors=True)] leaves of a tree: every
    entry that can be removed is, a directory once it is empty. *)
Fixpoint rmtree_node (n : node) : option node :=
  match n with
  | File a => if locked a then Some n else None
  | Dir a es =>
      let es' := omap (fun e => option_map (pair (fst e)) (rmtree_node (snd e))) es in
      match es' with
      | [] => if locked a then Some (Dir a []) else None
      | _ => Some (Dir a es')
      end
  end.

(** [shutil.rmtree(path, ignore_errors=True)]: never raises. *)
Definition rmtree (fs : node) (p : path) : node :=
  match lookup fs p with
  | Some (Dir _ _) => alter rmtree_node p fs
  | _ => fs
  end.

(** [str(e)] for an [OSError]. *)
Definition str_path (p : path) : string := String.concat "/" ("" :: p).

Definition str_OSError (e : OSError) : string :=
  match e with
  | FileNotFoundError p => "[Errno 2] No such file or directory: '" ++ str_path p ++ "'"
  | PermissionError p => "[Errno 13] Permission denied: '" ++ str_path p ++ "'"
  | IsADirectoryError p => "[Errno 21] Is a directory: '" ++ str_path p ++ "'"
  end.

(** The names of a listing are pairwise different. *)
Fixpoint distinct (l : list string) : bool :=
  match l with
  | [] => true
  | x :: l' => negb (existsb (String.eqb x) l') && distinct l'
  end.

(** A tree as a file system has it: no directory lists a name twice. *)
Fixpoint wf (n : node) : bool :=
  match n with
  | File _ => true
  | Dir _ es => distinct (List.map fst es) && forallb (fun e => wf (snd e)) es
  end.

(** [q] lies strictly below [d]. *)
Definition descendant (d q : path) : Prop := exists r, r <> [] /\ q = d ++ r.


(** *** Paths *)

Lemma descendant_nil q : descendant [] q <-> q <> [].
Proof.
  unfold descendant. split.
  - intros (r & Hr & ->). exact Hr.
  - intros Hq. now exists q.
Qed.

Lemma descendant_cons c d c' q : descendant (c :: d) (c' :: q) <-> c = c' /\ descendant d q.
Proof.
  unfold descendant. split.
  - intros (r & Hr & E). simpl in E. injection E as -> ->. split; [reflexivity|]. now exists r.
  - intros [-> (r & Hr & ->)]. now exists r.
Qed.

Lemma descendant_cons_nil c d : ~ descendant (c :: d) [].
Proof. intros (r & _ & E). discriminate E. Qed.

Lemma descendant_app p d q : descendant (p ++ d) (p ++ q) <-> descendant d q.
Proof.
  induction p as [|c p IH]; simpl; [reflexivity|].
  rewrite descendant_cons, IH. intuition.
Qed.

Lemma descendant_length d q : descendant d q -> (length d < length q)%nat.
Proof.
  intros (r & Hr & ->). rewrite length_app. destruct r; [contradiction|simpl; lia].
Qed.

Lemma descendant_irrefl d : ~ descendant d d.
Proof. intros H. apply descendant_length in H. lia. Qed.

Lemma descendant_trans a b c : descendant a b -> descendant b c -> descendant a c.
Proof.
  intros (r1 & H1 & ->) (r2 & H2 & ->). exists (r1 ++ r2). split.
  - destruct r1; [contradiction|discriminate].
  - now rewrite app_assoc.
Qed.

Lemma In_strict_prefixes d q : In d (strict_prefixes q) <-> descendant d q.
Proof.
  revert d. induction q as [|c q IH]; intros d; simpl.
  - split; [contradiction|]. intros H. apply descendant_length in H. simpl in H. lia.
  - rewrite in_map_iff. split.
    + intros [<-|(d' & <- & Hd')].
      * now apply descendant_nil.
      * apply descendant_cons. split; [reflexivity|]. now apply IH.
    + destruct d as [|c' d]; [now left|].
      intros H. apply descendant_cons in H as [-> H]. right. exists d. split; [reflexivity|].
      now apply IH.
Qed.

Lemma In_parents d q : In d (parents q) <-> descendant d q.
Proof. unfold parents. now rewrite <- in_rev, In_strict_prefixes. Qed.

(** *** Path resolution *)

Lemma lookup_app fs p r :
  lookup fs (p ++ r) = match lookup fs p with Some n => lookup n r | None => None end.
Proof.
  revert fs. induction p as [|c p IH]; intros fs; simpl; [reflexivity|].
  destruct (assoc c (entries_of fs)); [apply IH|reflexivity].
Qed.

Lemma existsb_eqb_false c l : existsb (String.eqb c) l = false -> ~ In c l.
Proof.
  intros H Hin. assert (existsb (String.eqb c) l = true); [|congruence].
  apply existsb_exists. exists c. split; [assumption|apply String.eqb_refl].
Qed.

Lemma distinct_assoc es e :
  distinct (List.map fst es) = true -> In e es -> assoc (fst e) es = Some (snd e).
Proof.
  induction es as [|e0 es IH]; simpl; [contradiction|].
  intros Hd [->|Hin].
  - now rewrite String.eqb_refl.
  - apply andb_true_iff in Hd as [Hn Hd]. apply negb_true_iff in Hn.
    destruct (String.eqb (fst e0) (fst e)) eqn:E.
    + apply String.eqb_eq in E. exfalso. apply (existsb_eqb_false _ _ Hn).
      rewrite E. now apply in_map.
    + now apply IH.
Qed.

Lemma wf_Dir a es :
  wf (Dir a es) = true ->
  distinct (List.map fst es) = true /\ forall e, In e es -> wf (snd e) = true.
Proof.
  simpl. intros H. apply andb_true_iff in H as [H1 H2].
  split; [assumption|]. now apply forallb_forall.
Qed.


Lemma lookup_wf fs p : forall n, wf fs = true -> lookup fs p = Some n -> wf n = true.
Proof.
  revert fs. induction p as [|c p IH]; intros fs n Hw; simpl.
  - now intros [= <-].
  - destruct (assoc c (entries_of fs)) as [n'|] eqn:E; [|discriminate].
    apply IH. destruct fs as [a|a es]; [discriminate|]. simpl in E.
    apply wf_Dir in Hw as [_ Hw]. clear -E Hw.
    induction es as [|e es IHes]; simpl in E; [discriminate|].
    destruct (String.eqb (fst e) c).
    + injection E as <-. apply Hw. now left.
    + apply IHes; try assumption. intros e' He'. apply Hw. now right.
Qed.

(** *** Removal *)

Lemma assoc_dropped c (es : list (string * node)) (g : string * node -> option (string * node)) :
  (forall e, fst e = c -> g e = None) ->
  (forall e, fst e <> c -> g e = Some e) ->
  assoc c (omap g es) = None.
Proof.
  intros Hc Hn. induction es as [|e es IH]; [reflexivity|].
  cbn [omap list_omap]. destruct (String.eqb (fst e) c) eqn:E.
  - apply String.eqb_eq in E. now rewrite (Hc e E).
  - apply String.eqb_neq in E. rewrite (Hn e E). cbn [assoc].
    apply String.eqb_neq in E. now rewrite E.
Qed.

Lemma assoc_altered c (es : list (string * node)) (h : node -> node) :
  assoc c (omap (fun e => if String.eqb (fst e) c then Some (fst e, h (snd e)) else Some e) es) =
  option_map h (assoc c es).
Proof.
  induction es as [|e es IH]; [reflexivity|].
  cbn [omap list_omap assoc]. destruct (String.eqb (fst e) c) eqn:E; cbn [assoc fst snd].
  - now rewrite E.
  - now rewrite E.
Qed.

Lemma alter_last f c a es :
  alter f [c] (Dir a es) =
  Dir a (omap (fun e => if String.eqb (fst e) c
                        then option_map (pair (fst e)) (f (snd e)) else Some e) es).
Proof. reflexivity. Qed.

Lemma alter_inner f c c' p a es :
  alter f (c :: c' :: p) (Dir a es) =
  Dir a (omap (fun e => if String.eqb (fst e) c
                        then Some (fst e, alter f (c' :: p) (snd e)) else Some e) es).
Proof. reflexivity. Qed.

Lemma lookup_cons_Dir a es c p :
  lookup (Dir a es) (c :: p) =
  match assoc c es with Some n' => lookup n' p | None => None end.
Proof. reflexivity. Qed.

(** After [path.unlink()] returned, the path (below the root) is no
    longer on the disk. *)
Lemma unlink_removes p : forall c fs fs',
  unlink fs (c :: p) = Ok fs' -> lookup fs' (c :: p) = None.
Proof.
  assert (U : forall q fs fs', unlink fs q = Ok fs' ->
              exists a0, lookup fs q = Some (File a0) /\ locked a0 = false /\
                         fs' = alter (fun _ => None) q fs).
  { intros q fs fs'. unfold unlink.
    destruct (lookup fs q) as [[a0|a0 es0]|]; try discriminate.
    destruct (locked a0) eqn:Hk; [discriminate|]. intros H. exists a0.
    repeat split; congruence. }
  induction p as [|c' p IH]; intros c fs fs' H;
    destruct (U _ _ _ H) as (a0 & Hl & Hk & ->); clear H;
    (destruct fs as [a|a es]; [discriminate Hl|]); rewrite lookup_cons_Dir in Hl.
  - rewrite alter_last, lookup_cons_Dir, assoc_dropped; [reflexivity| |].
    + intros e <-. now rewrite String.eqb_refl.
    + intros e He. apply String.eqb_neq in He. now rewrite He.
  - rewrite alter_inner, lookup_cons_Dir.
    rewrite (assoc_altered c es (alter (fun _ => None) (c' :: p))).
    destruct (assoc c es) as [n'|]; [|reflexivity]. cbn [option_map].
    apply (IH c' n'). unfold unlink. now rewrite Hl, Hk.
Qed.

(** *** The order of [rglob] *)

Lemma rglob_node_descendant n : forall p q, In q (rglob_node p n) -> descendant p q.
Proof.
  induction n as [a|a es IH] using node_ind; intros p q; simpl; [contradiction|].
  rewrite in_app_iff, in_map_iff, in_flat_map.
  intros [(e & <- & _)|(e & Hin & Hq)].
  - now exists [fst e].
  - rewrite List.Forall_forall in IH. specialize (IH e Hin _ _ Hq).
    apply descendant_trans with (p ++ [fst e]); [now exists [fst e]|assumption].
Qed.

(** No entry is listed after an entry below it: [rglob] yields a
    directory before everything inside it. *)
Definition not_above (a b : path) : Prop := ~ descendant b a.

Lemma same_length_sorted (l : list path) (k : nat) :
  (forall x, In x l -> length x = k) -> StronglySorted not_above l.
Proof.
  induction l as [|x l IH]; intros H; constructor.
  - apply IH. intros y Hy. apply H. now right.
  - apply List.Forall_forall. intros y Hy D. apply descendant_length in D.
    rewrite (H x), (H y) in D; [lia|now right|now left].
Qed.

Lemma descendant_branch p c1 r1 c2 r2 :
  descendant (p ++ c2 :: r2) (p ++ c1 :: r1) -> c1 = c2.
Proof. rewrite descendant_app, descendant_cons. now intros [-> _]. Qed.

Lemma descendant_below_child p c q : descendant (p ++ [c]) q -> exists r, q = p ++ c :: r.
Proof. intros (r & _ & ->). exists r. now rewrite <- app_assoc. Qed.

Lemma rglob_node_sorted n :
  forall p, wf n = true -> StronglySorted not_above (rglob_node p n).
Proof.
  induction n as [a|a es IH] using node_ind; intros p Hw; simpl; [constructor|].
  apply wf_Dir in Hw as [Hd Hw]. rewrite List.Forall_forall in IH.
  apply StronglySorted_app. split; [|split].
  - intros x1 x2 H1 H2 D.
    apply list_elem_of_In in H1, H2. apply in_map_iff in H1 as (e1 & <- & _).
    apply in_flat_map in H2 as (e2 & _ & H2). apply rglob_node_descendant in H2.
    apply descendant_length in H2, D. rewrite !length_app in *. simpl in *. lia.
  - apply same_length_sorted with (k := S (length p)).
    intros x Hx. apply in_map_iff in Hx as (e & <- & _). rewrite length_app. simpl. lia.
  - revert Hd IH Hw. induction es as [|e es IHes]; intros Hd IH Hw; simpl; [constructor|].
    simpl in Hd. apply andb_true_iff in Hd as [Hn Hd]. apply negb_true_iff in Hn.
    apply StronglySorted_app. split; [|split].
    + intros x1 x2 H1 H2 D. apply list_elem_of_In in H1, H2.
      apply rglob_node_descendant, descendant_below_child in H1 as (r1 & ->).
      apply in_flat_map in H2 as (e2 & Hin2 & H2).
      apply rglob_node_descendant, descendant_below_child in H2 as (r2 & ->).
      apply descendant_branch in D. apply (existsb_eqb_false _ _ Hn).
      rewrite D. now apply in_map.
    + apply IH; [now left|]. apply Hw. now left.
    + apply IHes; [assumption| |].
      * intros e' He'. apply IH. now right.
      * intros e' He'. apply Hw. now right.
Qed.

End Fs.

(** ** The scan: [Core.scanner] *)

Module Scanner.
Import Str Matcher.
Export Fs.

(** The second component of a [found_item] message: "File" or "Folder". *)
Inductive kind : Type := KFile | KFolder.

(** The messages of the queue.  The [modified] field of a
    [found_item] is the [st_mtime] the code formats with
    [time.strftime]. *)
Inductive message : Type :=
| found_item (p : path) (k : kind) (size : Z) (modified : Z)
| scan_done (total_size : Z) (file_count : Z)
| clean_error (p : path) (err : string)
| clean_done.

(** The locals of [scanner] and the queue it writes to. *)
Record scan_state : Type := {
  total_size : Z;
  file_count : Z;
  processed_paths : gset path;
  queue : list message
}.

Definition init_state : scan_state :=
  {| total_size := 0; file_count := 0; processed_paths := ∅; queue := [] |}.

(** [self.queue.put(m)] *)
Definition put (m : message) : M scan_state unit :=
  modify (fun s => {| total_size := total_size s; file_count := file_count s;
                      processed_paths := processed_paths s; queue := queue s ++ [m] |}).

(** [total_size += n] *)
Definition add_total_size (n : Z) : M scan_state unit :=
  modify (fun s => {| total_size := total_size s + n; file_count := file_count s;
                      processed_paths := processed_paths s; queue := queue s |}).

(** [file_count += 1] *)
Definition incr_file_count : M scan_state unit :=
  modify (fun s => {| total_size := total_size s; file_count := file_count s + 1;
                      processed_paths := processed_paths s; queue := queue s |}).

(** [processed_paths.add(str(p))] *)
Definition add_processed (p : path) : M scan_state unit :=
  modify (fun s => {| total_size := total_size s; file_count := file_count s;
                      processed_paths := {[ p ]} ∪ processed_paths s; queue := queue s |}).

(** [sum(f.stat().st_size for f in fs_list if f.is_file())], from the
    accumulator [acc]. *)
Fixpoint sum_sizes (fs : node) (l : list path) (acc : Z) : result Z :=
  match l with
  | [] => Ok acc
  | f :: l' =>
      match is_file fs f with
      | Raise e => Raise e
      | Ok false => sum_sizes fs l' acc
      | Ok true =>
          match stat fs f with
          | Raise e => Raise e
          | Ok s => sum_sizes fs l' (acc + st_size s)
          end
      end
  end.

Definition folder_size (fs : node) (root_path : path) : result Z :=
  sum_sizes fs (rglob fs root_path) 0.

(** [any(str(parent) in processed_paths for parent in root_path.parents)] *)
Definition parent_processed (processed : gset path) (root_path : path) : bool :=
  existsb (fun parent => bool_decide (parent ∈ processed)) (parents root_path).

(** [root_path.suffix.lower() in [ext.lower() for ext in JUNK_FILES["extensions"]]] *)
Definition suffix_is_junk (root_path : path) : bool :=
  existsb (String.eqb (lower (suffix root_path))) (List.map lower (extensions JUNK_FILES)).

(** The body of the [try] statement for one entry. *)
Definition scan_body (fs : node) (root_path : path) : M scan_state unit :=
  processed <- gets processed_paths ;;
  if parent_processed processed root_path then ret tt
  else
    d <- lift (is_dir fs root_path) ;;
    if d then
      if matches_patterns (name root_path) (folders JUNK_FILES) then
        size <- lift (folder_size fs root_path) ;;
        s <- lift (stat fs root_path) ;;
        put (found_item root_path KFolder size (st_mtime s)) ;;;
        add_total_size size ;;;
        incr_file_count ;;;
        add_processed root_path
      else ret tt
    else
      f <- lift (is_file fs root_path) ;;
      if f then
        if (matches_patterns (name root_path) (names JUNK_FILES) || suffix_is_junk root_path)%bool
        then
          s <- lift (stat fs root_path) ;;
          s' <- lift (stat fs root_path) ;;
          put (found_item root_path KFile (st_size s) (st_mtime s')) ;;;
          add_total_size (st_size s) ;;;
          incr_file_count
        else ret tt
      else ret tt.

(** One turn of the loop after the abort check: the [try] statement,
    whose handler is [continue]. *)
Definition scan_entry (fs : node) (st : scan_state) (root_path : path) : scan_state :=
  snd (try_except (scan_body fs root_path) (fun _ => ret tt) st).

(** The [for] loop.  [abort k] is what [self.abort_event.is_set()]
    answers at the worker's k-th check; the loop answers [true] when it
    left through [return]. *)
Fixpoint scan_loop (fs : node) (abort : nat -> bool) (k : nat)
    (entries : list path) (st : scan_state) : bool * scan_state :=
  match entries with
  | [] => (false, st)
  | root_path :: rest =>
      if abort k then (true, st)
      else scan_loop fs abort (S k) rest (scan_entry fs st root_path)
  end.

(** [Core.scanner]: the messages the worker puts on the queue. *)
Definition scanner (fs : node) (abort : nat -> bool) (scan_path : path) : list message :=
  let entries := rglob fs scan_path in
  match scan_loop fs abort 0 entries init_state with
  | (true, st) => queue st
  | (false, st) =>
      if negb (abort (length entries))
      then queue st ++ [scan_done (total_size st) (file_count st)]
      else queue st
  end.

(** The worker is never told to stop. *)
Definition never : nat -> bool := fun _ => false.

(** An entry with no restriction. *)
Definition plain (sz mt : Z) : attrs :=
  {| size := sz; mtime := mt; stat_denied := false; locked := false |}.

(** The scenario of the specification: [a/.DS_Store] (empty),
    [a/Logs/] with one file of 100 bytes, and [a/keep.txt]. *)
Definition scenario_fs : node :=
  Dir (plain 0 1)
    [ ("a", Dir (plain 0 2)
         [ (".DS_Store", File (plain 0 3));
           ("Logs", Dir (plain 0 4) [ ("app.txt", File (plain 100 5)) ]);
           ("keep.txt", File (plain 7 6)) ]) ].

Example suffix_examples :
  suffix ["a"; "app.log"] = ".log" /\ suffix [".log"] = "" /\
  suffix ["a."] = "" /\ suffix ["archive.tar.GZ"] = ".GZ" /\ suffix ["temp"] = "".
Proof. repeat split. Qed.

(** A folder one of whose files cannot be stat-ed: computing its size
    raises, the folder is passed over, and the scan goes on to its
    entries. *)
Definition denied_fs : node :=
  Dir (plain 0 1)
    [ ("tmp", Dir (plain 0 2)
         [ ("x.LOG", File (plain 40 3));
           ("secret", File {| size := 9; mtime := 4; stat_denied := true; locked := false |}) ]);
      ("Thumbs.db", File (plain 2 5)) ].

Example scanner_denied :
  scanner denied_fs never [] =
    [ found_item ["Thumbs.db"] KFile 2 5;
      found_item ["tmp"; "x.LOG"] KFile 40 3;
      scan_done 42 2 ].
Proof. vm_compute. reflexivity. Qed.

Example scanner_scenario :
  scanner scenario_fs never [] =
    [ found_item ["a"; ".DS_Store"] KFile 0 3;
      found_item ["a"; "Logs"] KFolder 100 4;
      scan_done 100 2 ].
Proof. vm_compute. reflexivity. Qed.

(** *** What one turn of the loop does *)

Definition is_found (m : message) : bool :=
  match m with found_item _ _ _ _ => true | _ => false end.

Definition item_size (m : message) : Z :=
  match m with found_item _ _ sz _ => sz | _ => 0 end.

Definition sum_item_sizes (l : list message) : Z :=
  fold_right (fun m acc => item_size m + acc) 0 l.

(** The state after one more item of size [sz]. *)
Definition emit (st : scan_state) (m : message) (sz : Z) (processed : gset path) : scan_state :=
  {| total_size := total_size st + sz; file_count := file_count st + 1;
     processed_paths := processed; queue := queue st ++ [m] |}.

Inductive entry_effect (fs : node) (st : scan_state) (x : path) : scan_state -> Prop :=
| effect_none : entry_effect fs st x st
| effect_folder sz s :
    parent_processed (processed_paths st) x = false ->
    is_dir fs x = Ok true ->
    matches_patterns (name x) (folders JUNK_FILES) = true ->
    folder_size fs x = Ok sz ->
    stat fs x = Ok s ->
    entry_effect fs st x
      (emit st (found_item x KFolder sz (st_mtime s)) sz ({[ x ]} ∪ processed_paths st))
| effect_file s :
    parent_processed (processed_paths st) x = false ->
    is_file fs x = Ok true ->
    stat fs x = Ok s ->
    entry_effect fs st x
      (emit st (found_item x KFile (st_size s) (st_mtime s)) (st_size s) (processed_paths st)).

Lemma scan_entry_effect fs st x : entry_effect fs st x (scan_entry fs st x).
Proof.
  unfold scan_entry, try_except, scan_body, bind, gets, lift, ret.
  destruct (parent_processed (processed_paths st) x) eqn:Hp; [apply effect_none|].
  destruct (is_dir fs x) as [[|]|e] eqn:Hd; cbv beta iota; try apply effect_none.
  - destruct (matches_patterns (name x) (folders JUNK_FILES)) eqn:Hm; [|apply effect_none].
    destruct (folder_size fs x) as [sz|e] eqn:Hs; cbv beta iota; [|apply effect_none].
    destruct (stat fs x) as [s|e] eqn:Hst; cbv beta iota; [|apply effect_none].
    exact (effect_folder fs st x sz s Hp Hd Hm Hs Hst).
  - destruct (is_file fs x) as [[|]|e] eqn:Hf; cbv beta iota; try apply effect_none.
    destruct (matches_patterns (name x) (names JUNK_FILES) || suffix_is_junk x)%bool;
      [|apply effect_none].
    destruct (stat fs x) as [s|e] eqn:Hst; cbv beta iota; [|apply effect_none].
    exact (effect_file fs st x s Hp Hf Hst).
Qed.


Lemma parent_processed_true processed x :
  parent_processed processed x = true <-> exists d, d ∈ processed /\ descendant d x.
Proof.
  unfold parent_processed. rewrite existsb_exists. split.
  - intros (d & Hin & Hd). apply bool_decide_eq_true in Hd. exists d. split; [assumption|].
    now apply In_parents.
  - intros (d & Hd & Hx). exists d. split; [now apply In_parents|].
    now apply bool_decide_eq_true.
Qed.

(** *** The counters follow the queue *)

Record counted (st : scan_state) : Prop := {
  counted_found : Forall (fun m => is_found m = true) (queue st);
  counted_count : file_count st = Z.of_nat (length (queue st));
  counted_total : total_size st = sum_item_sizes (queue st)
}.

Lemma sum_item_sizes_snoc l m : sum_item_sizes (l ++ [m]) = sum_item_sizes l + item_size m.
Proof. unfold sum_item_sizes. induction l as [|x l IH]; simpl; lia. Qed.

Lemma counted_init : counted init_state.
Proof. split; simpl; [constructor|reflexivity|reflexivity]. Qed.

Lemma counted_emit st m sz processed :
  counted st -> is_found m = true -> item_size m = sz -> counted (emit st m sz processed).
Proof.
  intros [Hf Hc Ht] Hm Hs. split; simpl.
  - apply Forall_app. split; [assumption|]. now repeat constructor.
  - rewrite length_app, Hc. simpl. lia.
  - rewrite sum_item_sizes_snoc, Ht, Hs. reflexivity.
Qed.

Lemma counted_scan_entry fs st x : counted st -> counted (scan_entry fs st x).
Proof.
  intros H. destruct (scan_entry_effect fs st x); [assumption| |]; now apply counted_emit.
Qed.

Lemma counted_fold fs entries : forall st,
  counted st -> counted (fold_left (scan_entry fs) entries st).
Proof.
  induction entries as [|x entries IH]; intros st H; simpl; [assumption|].
  now apply IH, counted_scan_entry.
Qed.

(** *** The loop and the abort checks *)

Lemma scan_loop_never fs abort entries : forall k st,
  (forall j, (j < length entries)%nat -> abort (k + j)%nat = false) ->
  scan_loop fs abort k entries st = (false, fold_left (scan_entry fs) entries st).
Proof.
  induction entries as [|x entries IH]; intros k st H; simpl; [reflexivity|].
  rewrite <- (Nat.add_0_r k) at 1. rewrite (H O) by (simpl; lia).
  apply IH. intros j Hj. rewrite Nat.add_succ_comm. apply H. simpl. lia.
Qed.

Lemma scan_loop_abort fs abort entries : forall j k st,
  (j < length entries)%nat ->
  abort (k + j)%nat = true ->
  (forall i, (i < j)%nat -> abort (k + i)%nat = false) ->
  scan_loop fs abort k entries st = (true, fold_left (scan_entry fs) (take j entries) st).
Proof.
  induction entries as [|x entries IH]; intros j k st Hj Ha Hb; simpl in Hj; [lia|].
  destruct j as [|j]; simpl.
  - rewrite Nat.add_0_r in Ha. now rewrite Ha.
  - rewrite <- (Nat.add_0_r k) at 1. rewrite (Hb O) by lia.
    apply IH; [lia|now rewrite Nat.add_succ_comm|].
    intros i Hi. rewrite Nat.add_succ_comm. apply Hb. lia.
Qed.

(** The first check that answers [true] among the checks [k .. k+n]. *)
Lemma first_abort (abort : nat -> bool) (n : nat) : forall k,
  (forall j, (j <= n)%nat -> abort (k + j)%nat = false) \/
  (exists j, (j <= n)%nat /\ abort (k + j)%nat = true /\
             forall i, (i < j)%nat -> abort (k + i)%nat = false).
Proof.
  induction n as [|n IH]; intros k.
  - destruct (abort (k + 0)%nat) eqn:E.
    + right. exists O. repeat split; [lia|assumption|intros i Hi; lia].
    + left. intros j Hj. now replace j with O by lia.
  - destruct (IH k) as [H|(j & Hj & Ha & Hb)].
    + destruct (abort (k + S n)%nat) eqn:E.
      * right. exists (S n). repeat split; [lia|assumption|].
        intros i Hi. apply H. lia.
      * left. intros j Hj. destruct (Nat.eq_dec j (S n)) as [->|Hne]; [assumption|].
        apply H. lia.
    + right. exists j. repeat split; [lia|assumption|assumption].
Qed.

(** The queue of a completed scan. *)
Lemma scanner_completed fs abort scan_path :
  (forall k, (k <= length (rglob fs scan_path))%nat -> abort k = false) ->
  let st := fold_left (scan_entry fs) (rglob fs scan_path) init_state in
  scanner fs abort scan_path = queue st ++ [scan_done (total_size st) (file_count st)].
Proof.
  intros H. unfold scanner. rewrite scan_loop_never.
  - now rewrite (H (length (rglob fs scan_path))) by lia.
  - intros j Hj. apply H. simpl. lia.
Qed.

(** The queue of a scan that sees the abort at its [j]-th check. *)
Lemma scanner_aborted fs abort scan_path j :
  (j <= length (rglob fs scan_path))%nat ->
  abort j = true ->
  (forall i, (i < j)%nat -> abort i = false) ->
  scanner fs abort scan_path =
    queue (fold_left (scan_entry fs) (take j (rglob fs scan_path)) init_state).
Proof.
  intros Hj Ha Hb. unfold scanner.
  destruct (Nat.eq_dec j (length (rglob fs scan_path))) as [->|Hne].
  - rewrite scan_loop_never by (intros i Hi; apply Hb; simpl; lia).
    rewrite Ha. simpl. now rewrite take_ge by lia.
  - now rewrite (scan_loop_abort fs abort _ j) by (simpl; auto; lia).
Qed.

(** Whatever the abort checks answer, the found items of the queue are
    those of a scan of some first entries. *)
Lemma scanner_prefix fs abort scan_path :
  exists j, let st := fold_left (scan_entry fs) (take j (rglob fs scan_path)) init_state in
    scanner fs abort scan_path = queue st \/
    scanner fs abort scan_path = queue st ++ [scan_done (total_size st) (file_count st)].
Proof.
  destruct (first_abort abort (length (rglob fs scan_path)) O) as [H|(j & Hj & Ha & Hb)].
  - exists (length (rglob fs scan_path)). right. rewrite take_ge by lia.
    now apply scanner_completed.
  - exists j. left. now apply scanner_aborted.
Qed.

(** Claim C4.  A scan whose abort checks all answer [false] (the checks
    at the head of every turn of the loop and the one after it) puts
    the found items and then exactly one [scan_done], whose item count
    is the number of [found_item] messages put before it. *)
Theorem scan_done_counts_found_items fs abort scan_path :
  (forall k, (k <= length (rglob fs scan_path))%nat -> abort k = false) ->
  exists items total,
    scanner fs abort scan_path = items ++ [scan_done total (Z.of_nat (length items))] /\
    Forall (fun m => is_found m = true) items.
Proof.
  intros H. rewrite (scanner_completed fs abort scan_path H).
  destruct (counted_fold fs (rglob fs scan_path) init_state counted_init) as [Hf Hc _].
  eexists _, _. rewrite Hc. split; [reflexivity|assumption].
Qed.

Lemma scan_done_counts_found_items_witness :
  exists items total,
    scanner scenario_fs never [] = items ++ [scan_done total (Z.of_nat (length items))] /\
    Forall (fun m => is_found m = true) items.
Proof. apply (scan_done_counts_found_items scenario_fs never []). reflexivity. Defined.

(** Claim C10.  In a scan whose abort checks all answer [false], the
    total size of the [scan_done] message is the sum of the sizes of
    the [found_item] messages put before it. *)
Theorem scan_done_total_is_sum_of_sizes fs abort scan_path :
  (forall k, (k <= length (rglob fs scan_path))%nat -> abort k = false) ->
  exists items count,
    scanner fs abort scan_path = items ++ [scan_done (sum_item_sizes items) count] /\
    Forall (fun m => is_found m = true) items.
Proof.
  intros H. rewrite (scanner_completed fs abort scan_path H).
  destruct (counted_fold fs (rglob fs scan_path) init_state counted_init) as [Hf _ Ht].
  eexists _, _. rewrite Ht. split; [reflexivity|assumption].
Qed.

Lemma scan_done_total_is_sum_of_sizes_witness :
  exists items count,
    scanner scenario_fs never [] = items ++ [scan_done (sum_item_sizes items) count] /\
    Forall (fun m => is_found m = true) items.
Proof. apply (scan_done_total_is_sum_of_sizes scenario_fs never []). reflexivity. Defined.

(** Claim C5.  When some abort check of the scan answers [true] (a
    check at the head of a turn of the loop, or the one after the
    loop), the worker puts no [scan_done]: the queue holds the found
    items of the entries visited before the first such check, and
    nothing else. *)
Theorem aborted_scan_puts_no_scan_done fs abort scan_path k :
  (k <= length (rglob fs scan_path))%nat ->
  abort k = true ->
  (forall total count, ~ In (scan_done total count) (scanner fs abort scan_path)) /\
  exists j, (j <= k)%nat /\ abort j = true /\
    scanner fs abort scan_path =
      queue (fold_left (scan_entry fs) (take j (rglob fs scan_path)) init_state).
Proof.
  intros Hk Ha.
  destruct (first_abort abort k O) as [H|(j & Hj & Haj & Hb)].
  { specialize (H k ltac:(lia)). simpl in H. congruence. }
  simpl in Haj, Hb.
  assert (E := scanner_aborted fs abort scan_path j ltac:(lia) Haj Hb).
  split; [|exists j; now repeat split].
  intros total count Hin. rewrite E in Hin.
  destruct (counted_fold fs (take j (rglob fs scan_path)) init_state counted_init) as [Hf _ _].
  rewrite List.Forall_forall in Hf. now specialize (Hf _ Hin).
Qed.

Definition abort_at (n : nat) : nat -> bool := fun k => Nat.eqb k n.

Lemma aborted_scan_puts_no_scan_done_witness :
  (forall total count, ~ In (scan_done total count) (scanner scenario_fs (abort_at 2) [])) /\
  exists j, (j <= 2)%nat /\ abort_at 2 j = true /\
    scanner scenario_fs (abort_at 2) [] =
      queue (fold_left (scan_entry scenario_fs) (take j (rglob scenario_fs [])) init_state).
Proof.
  apply (aborted_scan_puts_no_scan_done scenario_fs (abort_at 2) [] 2).
  - vm_compute. lia.
  - reflexivity.
Defined.

Example scanner_scenario_aborted :
  scanner scenario_fs (abort_at 2) [] = [ found_item ["a"; ".DS_Store"] KFile 0 3 ].
Proof. vm_compute. reflexivity. Qed.

(** *** Pruning below a folder that was found *)

Section pruning.
Variable fs : node.

(** What holds of the state when the entries [rest] are still to be
    visited. *)
Record pruned (st : scan_state) (rest : list path) : Prop := {
  pruned_future : forall q k sz m y,
    In (found_item q k sz m) (queue st) -> In y rest -> ~ descendant y q;
  pruned_past : forall q k sz m d,
    In (found_item q k sz m) (queue st) -> d ∈ processed_paths st -> ~ descendant d q;
  pruned_folder : forall d sz m,
    In (found_item d KFolder sz m) (queue st) ->
    d ∈ processed_paths st /\ is_dir fs d = Ok true /\ folder_size fs d = Ok sz
}.

Lemma pruned_init rest : pruned init_state rest.
Proof. split; simpl; contradiction. Qed.

Lemma pruned_weaken st x rest : pruned st (x :: rest) -> pruned st rest.
Proof.
  intros [Hf Hp Hd]. split; [|assumption|assumption].
  intros q k sz m y Hq Hy. apply (Hf q k sz m y Hq). now right.
Qed.

Lemma pruned_step st x rest :
  StronglySorted not_above (x :: rest) ->
  pruned st (x :: rest) -> pruned (scan_entry fs st x) rest.
Proof.
  intros Hs Hpr. apply StronglySorted_inv in Hs as [_ Hx].
  rewrite List.Forall_forall in Hx.
  assert (Hnew : forall st', pruned st rest ->
    parent_processed (processed_paths st) x = false ->
    forall k sz m processed,
      (forall d, d ∈ processed -> d = x \/ d ∈ processed_paths st) ->
      (k = KFolder -> x ∈ processed /\ is_dir fs x = Ok true /\ folder_size fs x = Ok sz) ->
      (forall d, d ∈ processed_paths st -> d ∈ processed) ->
      st' = emit st (found_item x k sz m) sz processed -> pruned st' rest).
  { intros st' [Hf Hp Hd] Hpp k sz m processed Hsub Hk Hmono ->. split; simpl.
    - intros q k' sz' m' y Hq Hy. apply in_app_iff in Hq as [Hq|[[= <- <- <- <-]|[]]].
      + now apply (Hf q k' sz' m' y).
      + apply (Hx y Hy).
    - intros q k' sz' m' d Hq Hdp. apply in_app_iff in Hq as [Hq|[[= <- <- <- <-]|[]]].
      + destruct (Hsub d Hdp) as [->|Hd'].
        * destruct Hpr as [Hf' _ _]. apply (Hf' q k' sz' m' x Hq). now left.
        * now apply (Hp q k' sz' m' d).
      + destruct (Hsub d Hdp) as [->|Hd']; [apply descendant_irrefl|].
        intros D. assert (parent_processed (processed_paths st) x = true); [|congruence].
        apply parent_processed_true. now exists d.
    - intros d sz' m' Hq. apply in_app_iff in Hq as [Hq|[[= <- E <- <-]|[]]].
      + destruct (Hd d sz' m' Hq) as (H1 & H2 & H3). auto.
      + now apply Hk. }
  destruct (scan_entry_effect fs st x) as [|sz s Hp Hd Hm Hz Hst|s Hp Hf Hst].
  - now apply pruned_weaken with x.
  - eapply Hnew; [now apply pruned_weaken with x|assumption| | | |reflexivity].
    + intros d Hd'. apply elem_of_union in Hd' as [Hd'|Hd']; [left|now right].
      now apply elem_of_singleton in Hd'.
    + intros _. repeat split; [|assumption|assumption]. apply elem_of_union. left.
      now apply elem_of_singleton.
    + intros d Hd'. apply elem_of_union. now right.
  - eapply Hnew; [now apply pruned_weaken with x|assumption| | | |reflexivity].
    + intros d Hd'. now right.
    + discriminate.
    + auto.
Qed.

Lemma pruned_fold entries : forall st,
  StronglySorted not_above entries ->
  pruned st entries -> pruned (fold_left (scan_entry fs) entries st) [].
Proof.
  induction entries as [|x entries IH]; intros st Hs Hp; simpl; [assumption|].
  apply IH; [now apply StronglySorted_inv in Hs as [Hs _]|now apply pruned_step].
Qed.
End pruning.

(** *** The size of a folder *)











Lemma rglob_sorted fs scan_path : wf fs = true -> StronglySorted not_above (rglob fs scan_path).
Proof.
  intros Hw. unfold rglob. destruct (lookup fs scan_path) as [n|] eqn:Hl; [|constructor].
  apply rglob_node_sorted. now apply (lookup_wf fs scan_path).
Qed.

Lemma take_sorted (l : list path) j : StronglySorted not_above l -> StronglySorted not_above (take j l).
Proof.
  intros H. rewrite <- (take_drop j l) in H. now apply StronglySorted_app_1_l in H.
Qed.



End Scanner.

(** ** The deletion pass: [Core.cleaner] *)

Module Cleaner.
Import Scanner.

(** A Python number: [delay] is the [int] 0 or a [float]. *)
Inductive pynum : Type :=
| PyInt (n : Z)
| PyFloat (f : float).

(** [float(n)] for an [int]: the nearest binary64 number. *)
Definition float_of_int (n : Z) : float := SF2Prim (binary_normalize 53 1024 n 0 false).

(** What the worker does, in order: the calls that change the disk,
    the calls of [time.sleep] and the messages put on the queue. *)
Inductive effect : Type :=
| EUnlink (p : path)
| ERmtree (p : path)
| ESleep (d : pynum)
| EPut (m : message).

Record clean_state : Type := {
  disk : node;
  trace : list effect
}.

Definition log (e : effect) : M clean_state unit :=
  modify (fun s => {| disk := disk s; trace := trace s ++ [e] |}).

(** [path.exists()] and [path.is_file()] on the disk as it is now. *)
Definition exists_now (p : path) : M clean_state bool :=
  fun s => (exists_ (disk s) p, s).

Definition is_file_now (p : path) : M clean_state bool :=
  fun s => (is_file (disk s) p, s).

(** [path.unlink()] *)
Definition unlink_now (p : path) : M clean_state unit :=
  fun s =>
    match unlink (disk s) p with
    | Ok disk' => (Ok tt, {| disk := disk'; trace := trace s ++ [EUnlink p] |})
    | Raise e => (Raise e, s)
    end.

(** [shutil.rmtree(path, ignore_errors=True)] *)
Definition rmtree_now (p : path) : M clean_state unit :=
  modify (fun s => {| disk := rmtree (disk s) p; trace := trace s ++ [ERmtree p] |}).

(** The body of the [try] statement for one path. *)
Definition clean_body (delay : pynum) (path : path) : M clean_state unit :=
  e <- exists_now path ;;
  if e then
    f <- is_file_now path ;;
    if f then
      unlink_now path ;;;
      log (ESleep delay)
    else
      rmtree_now path ;;;
      log (ESleep delay)
  else ret tt.

(** The [try] statement with its handler. *)
Definition clean_item (delay : pynum) (path : path) : M clean_state unit :=
  try_except (clean_body delay path)
    (fun e => log (EPut (clean_error path (str_OSError e)))).

Definition clean_step (delay : pynum) (st : clean_state) (path : path) : clean_state :=
  snd (clean_item delay path st).

(** The [for] loop: [abort k] is what [self.abort_event.is_set()]
    answers at the k-th check; [true] leaves the loop ([break]). *)
Fixpoint clean_loop (delay : pynum) (abort : nat -> bool) (k : nat)
    (items : list path) (st : clean_state) : clean_state :=
  match items with
  | [] => st
  | path :: rest =>
      if abort k then st
      else clean_loop delay abort (S k) rest (clean_step delay st path)
  end.

Definition target_duration : float := 1.5%float.

(** [delay = target_duration / item_count if item_count > 0 else 0] *)
Definition delay_of (items : list path) : pynum :=
  let item_count := Z.of_nat (length items) in
  if (0 <? item_count)%Z then PyFloat (PrimFloat.div target_duration (float_of_int item_count))
  else PyInt 0.

(** [Core.cleaner] on the disk [d]: the disk it leaves and what it did. *)
Definition cleaner (d : node) (abort : nat -> bool) (items : list path) : clean_state :=
  let delay := delay_of items in
  let st := clean_loop delay abort 0 items {| disk := d; trace := [] |} in
  snd (log (EPut clean_done) st).

(** The messages among the effects: the queue. *)
Definition messages (tr : list effect) : list message :=
  omap (fun e => match e with EPut m => Some m | _ => None end) tr.

(** Three paths, the second of which is not on the disk. *)
Definition three_fs : node :=
  Dir (plain 0 1) [ ("a", File (plain 10 2)); ("c", File (plain 30 3)) ].

Definition three_items : list path := [ ["a"]; ["b"]; ["c"] ].

Example cleaner_three :
  cleaner three_fs never three_items =
    {| disk := Dir (plain 0 1) [];
       trace := [ EUnlink ["a"]; ESleep (PyFloat 0.5%float);
                  EUnlink ["c"]; ESleep (PyFloat 0.5%float); EPut clean_done ] |}.
Proof. vm_compute. reflexivity. Qed.

(** A locked file between two plain ones. *)
Definition locked_fs : node :=
  Dir (plain 0 1)
    [ ("a", File (plain 10 2));
      ("b", File {| size := 20; mtime := 3; stat_denied := false; locked := true |});
      ("c", Dir (plain 0 4) [ ("x", File (plain 5 5)) ]) ].

Example cleaner_locked :
  cleaner locked_fs never three_items =
    {| disk := Dir (plain 0 1)
         [ ("b", File {| size := 20; mtime := 3; stat_denied := false; locked := true |}) ];
       trace := [ EUnlink ["a"]; ESleep (PyFloat 0.5%float);
                  EPut (clean_error ["b"] "[Errno 13] Permission denied: '/b'");
                  ERmtree ["c"]; ESleep (PyFloat 0.5%float); EPut clean_done ] |}.
Proof. vm_compute. reflexivity. Qed.

(** *** What the pass does with one path, read off the disk *)

Inductive item_trace (delay : pynum) (d : node) (path : path) : list effect -> node -> Prop :=
| item_missing :
    lookup d path = None ->
    item_trace delay d path [] d
| item_stat_denied n :
    lookup d path = Some n -> stat_denied (attrs_of n) = true ->
    item_trace delay d path
      [EPut (clean_error path (str_OSError (PermissionError path)))] d
| item_locked a :
    lookup d path = Some (File a) -> stat_denied a = false -> locked a = true ->
    item_trace delay d path
      [EPut (clean_error path (str_OSError (PermissionError path)))] d
| item_unlinked a :
    lookup d path = Some (File a) -> stat_denied a = false -> locked a = false ->
    item_trace delay d path [EUnlink path; ESleep delay] (alter (fun _ => None) path d)
| item_rmtree a es :
    lookup d path = Some (Dir a es) -> stat_denied a = false ->
    item_trace delay d path [ERmtree path; ESleep delay] (rmtree d path).

(** The paths of a list one after the other, each on the disk the
    ones before it left. *)
Inductive pass_trace (delay : pynum) : node -> list path -> list effect -> node -> Prop :=
| pass_nil d : pass_trace delay d [] [] d
| pass_cons d path rest tr d1 tr' d2 :
    item_trace delay d path tr d1 ->
    pass_trace delay d1 rest tr' d2 ->
    pass_trace delay d (path :: rest) (tr ++ tr') d2.

Lemma clean_step_item_trace delay st path :
  exists tr d', item_trace delay (disk st) path tr d' /\
                clean_step delay st path = {| disk := d'; trace := trace st ++ tr |}.
Proof.
  destruct st as [d t].
  unfold clean_step, clean_item, try_except, clean_body, bind, exists_now, is_file_now,
    unlink_now, rmtree_now, log, modify, ret, exists_, is_file, stat_test, stat, unlink.
  cbn [disk trace].
  destruct (lookup d path) as [n|] eqn:Hl; cbn.
  - destruct (stat_denied (attrs_of n)) eqn:Hs; cbn.
    + eexists _, _. split; [now apply (item_stat_denied delay d path n)|reflexivity].
    + destruct n as [a|a es]; cbn in Hs |- *; repeat (rewrite ?Hl, ?Hs; cbn).
      * destruct (locked a) eqn:Hk; cbn.
        -- eexists _, _. split; [now apply (item_locked delay d path a)|reflexivity].
        -- eexists _, _. split; [now apply (item_unlinked delay d path a)|].
           now rewrite <- app_assoc.
      * eexists _, _. split; [now apply (item_rmtree delay d path a es)|].
        now rewrite <- app_assoc.
  - eexists _, _. split; [now apply item_missing|]. now rewrite app_nil_r.
Qed.

Lemma fold_pass_trace delay items : forall st,
  exists tr d', pass_trace delay (disk st) items tr d' /\
                fold_left (clean_step delay) items st = {| disk := d'; trace := trace st ++ tr |}.
Proof.
  induction items as [|path items IH]; intros st.
  - exists [], (disk st). split; [constructor|]. destruct st. simpl. now rewrite app_nil_r.
  - destruct (clean_step_item_trace delay st path) as (tr & d1 & Hi & E).
    destruct (IH (clean_step delay st path)) as (tr' & d2 & Hp & E').
    rewrite E in Hp, E'. cbn [disk trace] in Hp, E'.
    exists (tr ++ tr'), d2. split; [now apply pass_cons with d1|].
    cbn [fold_left]. rewrite E, E'. now rewrite app_assoc.
Qed.

Lemma clean_loop_never delay abort items : forall k st,
  (forall j, (j < length items)%nat -> abort (k + j)%nat = false) ->
  clean_loop delay abort k items st = fold_left (clean_step delay) items st.
Proof.
  induction items as [|x items IH]; intros k st H; simpl; [reflexivity|].
  rewrite <- (Nat.add_0_r k) at 1. rewrite (H O) by (simpl; lia).
  apply IH. intros j Hj. rewrite Nat.add_succ_comm. apply H. simpl. lia.
Qed.

Lemma clean_loop_abort delay abort items : forall j k st,
  (j < length items)%nat ->
  abort (k + j)%nat = true ->
  (forall i, (i < j)%nat -> abort (k + i)%nat = false) ->
  clean_loop delay abort k items st = fold_left (clean_step delay) (take j items) st.
Proof.
  induction items as [|x items IH]; intros j k st Hj Ha Hb; simpl in Hj; [lia|].
  destruct j as [|j]; simpl.
  - rewrite Nat.add_0_r in Ha. now rewrite Ha.
  - rewrite <- (Nat.add_0_r k) at 1. rewrite (Hb O) by lia.
    apply IH; [lia|now rewrite Nat.add_succ_comm|].
    intros i Hi. rewrite Nat.add_succ_comm. apply Hb. lia.
Qed.

(** A pass that saw the abort at its [j]-th check, or never for
    [j = length items], did the first [j] paths and put [clean_done]. *)
Lemma cleaner_pass_trace d abort items j :
  (j <= length items)%nat ->
  (forall i, (i < j)%nat -> abort i = false) ->
  ((j < length items)%nat -> abort j = true) ->
  exists tr d', pass_trace (delay_of items) d (take j items) tr d' /\
                cleaner d abort items = {| disk := d'; trace := tr ++ [EPut clean_done] |}.
Proof.
  intros Hj Hb Hend.
  assert (E : clean_loop (delay_of items) abort 0 items {| disk := d; trace := [] |} =
              fold_left (clean_step (delay_of items)) (take j items) {| disk := d; trace := [] |}).
  { destruct (Nat.eq_dec j (length items)) as [->|Hne].
    - rewrite take_ge by lia. apply clean_loop_never. intros i Hi. now apply Hb.
    - apply clean_loop_abort; [lia| |assumption]. apply Hend. lia. }
  destruct (fold_pass_trace (delay_of items) (take j items) {| disk := d; trace := [] |})
    as (tr & d' & Hp & E').
  exists tr, d'. split; [assumption|].
  unfold cleaner. cbv zeta. rewrite E, E'. reflexivity.
Qed.

Lemma item_trace_no_done delay d path tr d' :
  item_trace delay d path tr d' -> ~ In (EPut clean_done) tr.
Proof. intros [] Hin; simpl in Hin; intuition discriminate. Qed.

Lemma pass_trace_no_done delay d items tr d' :
  pass_trace delay d items tr d' -> ~ In (EPut clean_done) tr.
Proof.
  induction 1 as [|d path rest tr d1 tr' d2 Hi _ IH]; [now intros []|].
  intros Hin. apply in_app_iff in Hin as [Hin|Hin]; [|now apply IH].
  now apply (item_trace_no_done _ _ _ _ _ Hi).
Qed.

(** Claim C1, as the code has it.  A pass that is not cancelled takes
    every path of the list in turn, on the disk the paths before it
    left, whatever happened to them, and then puts [clean_done].  A
    path whose [exists], [is_file] or [unlink] raises [OSError] (the
    entry cannot be stat-ed, or it is a regular file that cannot be
    removed) gives exactly one [clean_error] with that path and
    [str(e)]; a path that is not on the disk is skipped and gives
    nothing; a regular file is unlinked and a directory is given to
    [rmtree], whose failures are ignored, and neither gives a message. *)
Theorem deletion_failure_gives_one_clean_error (d : node) (items : list path) :
  exists tr d',
    pass_trace (delay_of items) d items tr d' /\
    cleaner d never items = {| disk := d'; trace := tr ++ [EPut clean_done] |} /\
    ~ In (EPut clean_done) tr.
Proof.
  destruct (cleaner_pass_trace d never items (length items)) as (tr & d' & Hp & E);
    [lia|reflexivity|lia|].
  rewrite take_ge in Hp by lia.
  exists tr, d'. repeat split; [assumption|assumption|].
  now apply (pass_trace_no_done _ _ _ _ _ Hp).
Qed.

(** Against claim C1 as stated: of three paths the second is missing
    on the disk, and the pass puts no [clean_error] at all: the two
    files are removed and the queue holds [clean_done] alone. *)
Lemma missing_path_gives_no_clean_error :
  lookup three_fs ["b"] = None /\
  messages (trace (cleaner three_fs never three_items)) = [clean_done] /\
  disk (cleaner three_fs never three_items) = Dir (plain 0 1) [] /\
  ~ exists err, In (EPut (clean_error ["b"] err)) (trace (cleaner three_fs never three_items)).
Proof.
  rewrite cleaner_three. cbn [trace disk].
  repeat split; try reflexivity.
  intros (err & Hin). simpl in Hin. intuition discriminate.
Qed.

(** Claim C6.  When a check of the abort flag answers [true] before
    some path of the list, the pass stops at the first such check: the
    paths before it were handled as in a pass that is not cancelled
    (removed, skipped, or reported by [clean_error]) and stay so, no
    later path is touched, and exactly one [clean_done] is put, last. *)
Theorem cancelled_clean_puts_clean_done (d : node) (abort : nat -> bool)
    (items : list path) (k : nat) :
  (k < length items)%nat ->
  abort k = true ->
  exists j tr d',
    (j <= k)%nat /\ abort j = true /\
    pass_trace (delay_of items) d (take j items) tr d' /\
    cleaner d abort items = {| disk := d'; trace := tr ++ [EPut clean_done] |} /\
    ~ In (EPut clean_done) tr.
Proof.
  intros Hk Ha.
  destruct (first_abort abort k O) as [H|(j & Hj & Haj & Hb)].
  { specialize (H k ltac:(lia)). simpl in H. congruence. }
  simpl in Haj, Hb.
  destruct (cleaner_pass_trace d abort items j) as (tr & d' & Hp & E);
    [lia|assumption|now intros _|].
  exists j, tr, d'. repeat split; try assumption.
  now apply (pass_trace_no_done _ _ _ _ _ Hp).
Qed.

Lemma cancelled_clean_puts_clean_done_witness :
  exists j tr d',
    (j <= 1)%nat /\ abort_at 1 j = true /\
    pass_trace (delay_of three_items) locked_fs (take j three_items) tr d' /\
    cleaner locked_fs (abort_at 1) three_items =
      {| disk := d'; trace := tr ++ [EPut clean_done] |} /\
    ~ In (EPut clean_done) tr.
Proof.
  apply (cancelled_clean_puts_clean_done locked_fs (abort_at 1) three_items 1).
  - vm_compute. lia.
  - reflexivity.
Defined.

Example cleaner_cancelled :
  cleaner locked_fs (abort_at 1) three_items =
    {| disk := Dir (plain 0 1)
         [ ("b", File {| size := 20; mtime := 3; stat_denied := false; locked := true |});
           ("c", Dir (plain 0 4) [ ("x", File (plain 5 5)) ]) ];
       trace := [ EUnlink ["a"]; ESleep (PyFloat 0.5%float); EPut clean_done ] |}.
Proof. vm_compute. reflexivity. Qed.

(** *** Pacing *)

(** [path.unlink()] returned, or [shutil.rmtree] was called. *)
Definition is_removal (e : effect) : bool :=
  match e with
  | EUnlink _ | ERmtree _ => true
  | _ => false
  end.

(** Every removal of the trace is followed at once by a sleep of
    [delay]. *)
Inductive paced (delay : pynum) : list effect -> Prop :=
| paced_nil : paced delay []
| paced_put m tr : paced delay tr -> paced delay (EPut m :: tr)
| paced_removal e tr :
    is_removal e = true -> paced delay tr -> paced delay (e :: ESleep delay :: tr).

Lemma paced_app delay tr1 tr2 : paced delay tr1 -> paced delay tr2 -> paced delay (tr1 ++ tr2).
Proof. induction 1; intros H2; simpl; [assumption|constructor; auto|constructor; auto]. Qed.

Lemma item_trace_paced delay d path tr d' : item_trace delay d path tr d' -> paced delay tr.
Proof. intros []; repeat constructor. Qed.

Lemma pass_trace_paced delay d items tr d' : pass_trace delay d items tr d' -> paced delay tr.
Proof.
  induction 1 as [|d path rest tr d1 tr' d2 Hi _ IH]; [constructor|].
  apply paced_app; [now apply (item_trace_paced _ _ _ _ _ Hi)|assumption].
Qed.

Lemma paced_sleep_follows delay tr :
  paced delay tr ->
  forall l1 e l2, tr = l1 ++ e :: l2 -> is_removal e = true ->
                  exists l3, l2 = ESleep delay :: l3.
Proof.
  induction 1 as [|m tr _ IH|e0 tr He0 _ IH]; intros l1 e l2 E He.
  - now destruct l1.
  - destruct l1 as [|x l1]; simpl in E; injection E as <- E.
    + discriminate He.
    + now apply (IH l1 e l2).
  - destruct l1 as [|x l1]; simpl in E; injection E as <- E.
    + now exists tr.
    + destruct l1 as [|y l1]; simpl in E; injection E as <- E.
      * discriminate He.
      * now apply (IH l1 e l2).
Qed.

Lemma pass_trace_nonempty delay d items tr d' e :
  pass_trace delay d items tr d' -> In e tr -> items <> [].
Proof. intros [] Hin; [contradiction|discriminate]. Qed.

(** Whatever the abort checks answer, the pass did some first paths of
    the list and put [clean_done]. *)
Lemma cleaner_prefix d abort items :
  exists j tr d', pass_trace (delay_of items) d (take j items) tr d' /\
                  cleaner d abort items = {| disk := d'; trace := tr ++ [EPut clean_done] |}.
Proof.
  destruct items as [|x items].
  { exists O, [], d. split; [constructor|reflexivity]. }
  destruct (first_abort abort (length items) O) as [H|(j & Hj & Ha & Hb)].
  - destruct (cleaner_pass_trace d abort (x :: items) (length (x :: items)))
      as (tr & d' & Hp & E); [lia|intros i Hi; apply H; simpl in Hi; lia|lia|].
    now exists (length (x :: items)), tr, d'.
  - destruct (cleaner_pass_trace d abort (x :: items) j) as (tr & d' & Hp & E);
      [simpl; lia|assumption|now intros _|].
    now exists j, tr, d'.
Qed.

Lemma delay_of_nonempty (items : list path) :
  items <> [] ->
  delay_of items =
    PyFloat (PrimFloat.div target_duration (float_of_int (Z.of_nat (length items)))).
Proof.
  intros Hne. unfold delay_of. cbv zeta.
  destruct items as [|x items]; [contradiction|].
  replace (0 <? Z.of_nat (length (x :: items)))%Z with true; [reflexivity|].
  symmetry. apply Z.ltb_lt. simpl length. lia.
Qed.

(** Claim C7.  For a list of [n] paths the pacing delay is the float
    quotient of 1.5 by [n] when [n > 0], and the integer 0 for the
    empty list; after every removal, the successful [unlink] of a file
    or the [rmtree] of a directory, the next thing the pass does is
    sleep for this delay. *)
Theorem sleep_of_delay_follows_each_removal (d : node) (abort : nat -> bool)
    (items : list path) :
  (forall l1 e l2,
      trace (cleaner d abort items) = l1 ++ e :: l2 -> is_removal e = true ->
      exists l3,
        l2 = ESleep (PyFloat (PrimFloat.div 1.5%float
                                (float_of_int (Z.of_nat (length items))))) :: l3) /\
  (forall x rest,
      delay_of (x :: rest) =
        PyFloat (PrimFloat.div 1.5%float (float_of_int (Z.of_nat (length (x :: rest)))))) /\
  delay_of [] = PyInt 0 /\
  trace (cleaner d abort []) = [EPut clean_done].
Proof.
  split; [|split; [intros x rest; now apply delay_of_nonempty|split; reflexivity]].
  intros l1 e l2 E He.
  destruct (cleaner_prefix d abort items) as (j & tr & d' & Hp & Ec).
  rewrite Ec in E. cbn [trace] in E.
  assert (Hpaced : paced (delay_of items) (tr ++ [EPut clean_done])).
  { apply paced_app; [now apply (pass_trace_paced _ _ _ _ _ Hp)|repeat constructor]. }
  destruct (paced_sleep_follows _ _ Hpaced l1 e l2 E He) as (l3 & ->).
  exists l3. rewrite delay_of_nonempty; [reflexivity|].
  intros ->. rewrite take_nil in Hp. inversion Hp; subst.
  destruct l1 as [|x l1]; simpl in E.
  - injection E as <- _. discriminate He.
  - injection E as _ E. now destruct l1.
Qed.

Example delay_of_three : delay_of three_items = PyFloat 0.5%float.
Proof. vm_compute. reflexivity. Qed.

End Cleaner.

(** ** The size formatter: [Core.format_size] *)

Module Format.
Import Cleaner.

(** [size < 1024] *)
Definition lt_1024 (size : pynum) : bool :=
  match size with
  | PyInt n => (n <? 1024)%Z
  | PyFloat f => PrimFloat.ltb f 1024%float
  end.

(** [size /= 1024]: true division, whose result is a [float].  The
    quotient of an [int] by 1024 is the nearest binary64 number (below
    [2^1023], where [float(size)] does not overflow). *)
Definition truediv_1024 (size : pynum) : pynum :=
  match size with
  | PyInt n => PyFloat (PrimFloat.div (float_of_int n) 1024%float)
  | PyFloat f => PyFloat (PrimFloat.div f 1024%float)
  end.

(** The [for] loop over the units; [unit] is the loop variable as last
    bound. *)
Fixpoint units_loop (units : list string) (size : pynum) (unit : string) : pynum * string :=
  match units with
  | [] => (size, unit)
  | u :: rest =>
      if lt_1024 size then (size, u)
      else units_loop rest (truediv_1024 size) u
  end.

Definition decimal (n : Z) : string :=
  DecimalString.NilZero.string_of_uint (N.to_uint (Z.to_N n)).

(** The nearest integer to [num / den], ties to even ([den > 0]). *)
Definition round_half_even (num den : Z) : Z :=
  let q := (num / den)%Z in
  let r := (num mod den)%Z in
  if (2 * r <? den)%Z then q
  else if (den <? 2 * r)%Z then (q + 1)%Z
  else if Z.even q then q else (q + 1)%Z.

(** The tenths of [m * 2^e], correctly rounded. *)
Definition tenths (m : positive) (e : Z) : Z :=
  if (0 <=? e)%Z then (10 * Z.pos m * 2 ^ e)%Z
  else round_half_even (10 * Z.pos m) (2 ^ (- e)).

(** [format(x, ".1f")] for a float. *)
Definition format_1f (x : float) : string :=
  match Prim2SF x with
  | S754_nan => "nan"
  | S754_infinity s => if s then "-inf" else "inf"
  | S754_zero s => if s then "-0.0" else "0.0"
  | S754_finite s m e =>
      let t := tenths m e in
      (if s then "-" else "") ++ decimal (t / 10) ++ "." ++ decimal (t mod 10)
  end.

(** [f"{size:.1f}"]: an [int] is converted to [float] first. *)
Definition format_num (size : pynum) : string :=
  match size with
  | PyInt n => format_1f (float_of_int n)
  | PyFloat f => format_1f f
  end.

(** [Core.format_size] *)
Definition format_size (size : Z) : string :=
  let '(size, unit) := units_loop ["B"; "KB"; "MB"; "GB"] (PyInt size) "" in
  format_num size ++ " " ++ unit.

(** The loop as the specification words it: divide by 1024 until the
    value is below 1024, and stop at GB without scaling further. *)
Fixpoint units_loop_as_specified (units : list string) (size : pynum) : pynum * string :=
  match units with
  | [] => (size, "")
  | [u] => (size, u)
  | u :: rest =>
      if lt_1024 size then (size, u)
      else units_loop_as_specified rest (truediv_1024 size)
  end.

Definition format_size_as_specified (size : Z) : string :=
  let '(size, unit) := units_loop_as_specified ["B"; "KB"; "MB"; "GB"] (PyInt size) in
  format_num size ++ " " ++ unit.

(** The four renderings the specification lists. *)
Example format_size_examples :
  format_size 0 = "0.0 B" /\ format_size 1024 = "1.0 KB" /\
  format_size 1536 = "1.5 KB" /\ format_size 1073741824 = "1.0 GB".
Proof. vm_compute. repeat split. Qed.

Example format_size_more :
  format_size 1023 = "1023.0 B" /\ format_size 1280 = "1.2 KB" /\
  format_size 1099511627775 = "1024.0 GB" /\ format_size 5368709120 = "5.0 GB".
Proof. vm_compute. repeat split. Qed.

(** Claim C8 fails on the code from one tebibyte on.  The loop divides
    once more when the unit is GB and the value is not below 1024, so
    [2^40] bytes, which are 1024 GB, are rendered as 1.0 GB; stopping
    at GB without scaling further gives 1024.0 GB. *)
Theorem format_size_tebibyte :
  format_size 1099511627776 = "1.0 GB" /\
  format_size_as_specified 1099511627776 = "1024.0 GB".
Proof. vm_compute. split; reflexivity. Qed.

End Format.

(** ** The commands of the engine: [Core.scan] and [Core.clean] *)

Module Engine.
Import Scanner.

(** What a worker thread runs. *)
Inductive job : Type :=
| ScanJob (scan_path : path)
| CleanJob (items : list path).

(** A [threading.Thread]: its target and what [is_alive()] answers. *)
Record worker : Type := {
  target : job;
  alive : bool
}.

(** The attributes of a [Core] object. *)
Record Core : Type := {
  abort_event : bool;
  queue : list message;
  thread : option worker
}.

(** How a command ends for its caller: it returns, leaving the engine
    in a state, or it raises. *)
Inductive outcome : Type :=
| Returned (c : Core)
| Rejected (reason : string).

(** [Core.__init__] *)
Definition init : Core := {| abort_event := false; queue := []; thread := None |}.

(** An operation is in the Running state. *)
Definition running (c : Core) : bool :=
  match thread c with
  | Some w => alive w
  | None => false
  end.

(** [Core.scan]: clear the event, a new queue, a new thread, started. *)
Definition scan (c : Core) (scan_path : path) : outcome :=
  let c := {| abort_event := false; queue := queue c; thread := thread c |} in
  let c := {| abort_event := abort_event c; queue := []; thread := thread c |} in
  let c := {| abort_event := abort_event c; queue := queue c; thread := None |} in
  Returned {| abort_event := abort_event c; queue := queue c;
              thread := Some {| target := ScanJob scan_path; alive := true |} |}.

(** [Core.clean] *)
Definition clean (c : Core) (items : list path) : outcome :=
  let c := {| abort_event := false; queue := queue c; thread := thread c |} in
  let c := {| abort_event := abort_event c; queue := []; thread := thread c |} in
  let c := {| abort_event := abort_event c; queue := queue c; thread := None |} in
  Returned {| abort_event := abort_event c; queue := queue c;
              thread := Some {| target := CleanJob items; alive := true |} |}.

(** [self.abort_event.set()], as the presentation layer cancels. *)
Definition cancel (c : Core) : Core :=
  {| abort_event := true; queue := queue c; thread := thread c |}.

(** An engine in the middle of a scan that has found one item and was
    asked to stop. *)
Definition busy : Core :=
  {| abort_event := true;
     queue := [ found_item ["a"; ".DS_Store"] KFile 0 3 ];
     thread := Some {| target := ScanJob []; alive := true |} |}.

(** Claim C9, as the code has it.  [scan] and [clean] reject nothing:
    whatever the state of the engine, also while a worker is running,
    the command returns, with the abort flag cleared, an empty new
    queue and a new live worker for the operation asked for in place
    of the previous one. *)
Theorem start_resets_and_never_rejects (c : Core) (scan_path : path) (items : list path) :
  scan c scan_path =
    Returned {| abort_event := false; queue := [];
                thread := Some {| target := ScanJob scan_path; alive := true |} |} /\
  clean c items =
    Returned {| abort_event := false; queue := [];
                thread := Some {| target := CleanJob items; alive := true |} |} /\
  (forall reason, scan c scan_path <> Rejected reason) /\
  (forall reason, clean c items <> Rejected reason).
Proof. repeat split; discriminate. Qed.

(** Against claim C9 as stated: a scan started while a scan is running
    is not rejected, and neither is a clean. *)
Lemma start_while_running_is_accepted :
  running busy = true /\
  ~ (exists reason, scan busy ["b"] = Rejected reason) /\
  ~ (exists reason, clean busy [["a"; ".DS_Store"]] = Rejected reason).
Proof. repeat split; intros (reason & H); discriminate H. Qed.

End Engine.

(** ** More on the scan: what a [found_item] stands for *)

Module ScanFacts.
Import Str Matcher Scanner.

(** The paths of the [found_item] messages of a queue. *)
Definition found_paths (q : list message) : list path :=
  omap (fun m => match m with found_item p _ _ _ => Some p | _ => None end) q.

(** What the code has checked before it puts a [found_item]. *)
Definition justified (fs : node) (m : message) : Prop :=
  match m with
  | found_item p KFolder sz mt =>
      is_dir fs p = Ok true /\
      matches_patterns (name p) (folders JUNK_FILES) = true /\
      folder_size fs p = Ok sz /\
      exists s, stat fs p = Ok s /\ mt = st_mtime s
  | found_item p KFile sz mt =>
      is_dir fs p = Ok false /\
      is_file fs p = Ok true /\
      (matches_patterns (name p) (names JUNK_FILES) || suffix_is_junk p)%bool = true /\
      exists s, stat fs p = Ok s /\ sz = st_size s /\ mt = st_mtime s
  | _ => True
  end.

(** The set [processed_paths] after an item of kind [k] for [x]. *)
Definition processed_after (k : kind) (x : path) (processed : gset path) : gset path :=
  match k with
  | KFolder => {[ x ]} ∪ processed
  | KFile => processed
  end.

(** One turn of the loop leaves the state alone or puts one justified
    message for the entry. *)
Lemma scan_entry_puts fs st x :
  scan_entry fs st x = st \/
  exists k sz mt,
    scan_entry fs st x =
      emit st (found_item x k sz mt) sz (processed_after k x (processed_paths st)) /\
    justified fs (found_item x k sz mt) /\
    parent_processed (processed_paths st) x = false.
Proof.
  unfold scan_entry, try_except, scan_body, bind, gets, lift, ret.
  destruct (parent_processed (processed_paths st) x) eqn:Hp; [now left|].
  destruct (is_dir fs x) as [[|]|e] eqn:Hd; cbv beta iota; try now left.
  - destruct (matches_patterns (name x) (folders JUNK_FILES)) eqn:Hm; [|now left].
    destruct (folder_size fs x) as [sz|e] eqn:Hs; cbv beta iota; [|now left].
    destruct (stat fs x) as [s|e] eqn:Hst; cbv beta iota; [|now left].
    right. exists KFolder, sz, (st_mtime s).
    split; [reflexivity|]. split; [|reflexivity].
    cbn. repeat split; try assumption. now exists s.
  - destruct (is_file fs x) as [[|]|e] eqn:Hf; cbv beta iota; try now left.
    destruct (matches_patterns (name x) (names JUNK_FILES) || suffix_is_junk x)%bool eqn:Hm;
      [|now left].
    destruct (stat fs x) as [s|e] eqn:Hst; cbv beta iota; [|now left].
    right. exists KFile, (st_size s), (st_mtime s).
    split; [reflexivity|]. split; [|reflexivity].
    cbn. repeat split; try assumption. now exists s.
Qed.

Lemma In_take {A} (x : A) j l : In x (take j l) -> In x l.
Proof.
  intros H. rewrite <- (take_drop j l). apply in_app_iff. now left.
Qed.

(** The queue of a scan, whatever the abort checks answer. *)
Lemma scanner_queue fs abort scan_path m :
  In m (scanner fs abort scan_path) ->
  is_found m = true ->
  exists j, In m (queue (fold_left (scan_entry fs) (take j (rglob fs scan_path)) init_state)).
Proof.
  intros Hin Hf. destruct (scanner_prefix fs abort scan_path) as (j & Hj). cbv zeta in Hj.
  exists j. destruct Hj as [Hj|Hj]; rewrite Hj in Hin; [assumption|].
  apply in_app_iff in Hin as [Hin|[<-|[]]]; [assumption|discriminate Hf].
Qed.

Lemma fold_justified fs entries : forall st,
  (forall m, In m (queue st) -> justified fs m /\
             forall p k sz mt, m = found_item p k sz mt -> In p entries) ->
  forall m, In m (queue (fold_left (scan_entry fs) entries st)) ->
            justified fs m /\ forall p k sz mt, m = found_item p k sz mt -> In p entries.
Proof.
  assert (G : forall done todo st,
    (forall m, In m (queue st) -> justified fs m /\
               forall p k sz mt, m = found_item p k sz mt -> In p (done ++ todo)) ->
    forall m, In m (queue (fold_left (scan_entry fs) todo st)) ->
              justified fs m /\
              forall p k sz mt, m = found_item p k sz mt -> In p (done ++ todo)).
  { intros done todo. revert done. induction todo as [|x todo IH]; intros done st H m Hin;
      [now apply H|].
    cbn [fold_left] in Hin.
    replace (done ++ x :: todo) with ((done ++ [x]) ++ todo) in * by now rewrite <- app_assoc.
    apply (IH (done ++ [x]) (scan_entry fs st x)); [|assumption].
    intros m' Hm'.
    destruct (scan_entry_puts fs st x) as [E|(k & sz & mt & E & Hj & _)];
      rewrite E in Hm'; [now apply H|].
    cbn [emit queue] in Hm'. apply in_app_iff in Hm' as [Hm'|[<-|[]]]; [now apply H|].
    split; [assumption|]. intros p k' sz' mt' [= <- _ _ _].
    apply in_app_iff. left. apply in_app_iff. right. now left. }
  intros st H m Hin. now apply (G [] entries st).
Qed.

(** X1.  Every [found_item] of a scan, aborted or not, names an entry
    that [rglob] lists below the scan root and that passed the checks
    of its kind: a Folder is a directory whose name matches a folder
    rule, reported with the size the scan summed below it and its own
    modification time; a File is a regular file whose name matches a
    name rule or whose suffix is a junk extension, reported with its
    own size and modification time. *)
Theorem found_item_is_junk fs abort scan_path p k sz mt :
  In (found_item p k sz mt) (scanner fs abort scan_path) ->
  In p (rglob fs scan_path) /\ descendant scan_path p /\
  justified fs (found_item p k sz mt).
Proof.
  intros Hin. destruct (scanner_queue fs abort scan_path _ Hin eq_refl) as (j & Hj).
  destruct (fold_justified fs (take j (rglob fs scan_path)) init_state
              ltac:(intros m []) _ Hj) as [Hjust Hp].
  assert (Hr : In p (rglob fs scan_path)) by (apply (In_take _ j); now apply (Hp p k sz mt)).
  repeat split; try assumption.
  unfold rglob in Hr. destruct (lookup fs scan_path); [|contradiction].
  now apply rglob_node_descendant in Hr.
Qed.

Lemma found_item_is_junk_witness :
  In ["a"; "Logs"] (rglob scenario_fs []) /\ descendant [] ["a"; "Logs"] /\
  justified scenario_fs (found_item ["a"; "Logs"] KFolder 100 4).
Proof.
  apply (found_item_is_junk scenario_fs never [] ["a"; "Logs"] KFolder 100 4).
  vm_compute. right. left. reflexivity.
Defined.

(** *** No path is reported twice *)

Lemma distinct_NoDup (l : list string) : distinct l = true -> NoDup l.
Proof.
  induction l as [|x l IH]; simpl; intros H; [constructor|].
  apply andb_true_iff in H as [Hn Hd]. apply negb_true_iff in Hn.
  constructor; [|now apply IH].
  intros Hin. apply list_elem_of_In in Hin. now apply (existsb_eqb_false _ _ Hn).
Qed.

Lemma rglob_node_NoDup n : forall p, wf n = true -> NoDup (rglob_node p n).
Proof.
  induction n as [a|a es IH] using node_ind; intros p Hw; simpl; [constructor|].
  apply wf_Dir in Hw as [Hd Hw]. rewrite List.Forall_forall in IH.
  apply NoDup_app. split; [|split].
  - apply (NoDup_fmap_2_strong (fun e : string * node => p ++ [fst e])).
    + intros e1 e2 H1 H2 E. apply app_inv_head in E. injection E as E.
      apply list_elem_of_In in H1, H2.
      assert (A1 := distinct_assoc es e1 Hd H1). assert (A2 := distinct_assoc es e2 Hd H2).
      rewrite E in A1. rewrite A1 in A2. injection A2 as A2.
      destruct e1, e2; simpl in *; congruence.
    + clear IH Hw. induction es as [|e es IHes]; [constructor|].
      simpl in Hd. apply andb_true_iff in Hd as [Hn Hd]. apply negb_true_iff in Hn.
      constructor; [|now apply IHes].
      intros Hin. apply list_elem_of_In in Hin. apply (existsb_eqb_false _ _ Hn).
      now apply in_map.
  - intros x H1 H2. apply list_elem_of_In in H1, H2.
    apply in_map_iff in H1 as (e1 & <- & _).
    apply in_flat_map in H2 as (e2 & _ & H2). apply rglob_node_descendant in H2.
    apply descendant_length in H2. rewrite !length_app in H2. simpl in H2. lia.
  - revert Hd IH Hw. induction es as [|e es IHes]; intros Hd IH Hw; simpl; [constructor|].
    simpl in Hd. apply andb_true_iff in Hd as [Hn Hd]. apply negb_true_iff in Hn.
    apply NoDup_app. split; [|split].
    + apply IH; [now left|]. apply Hw. now left.
    + intros x H1 H2. apply list_elem_of_In in H1, H2.
      apply rglob_node_descendant, descendant_below_child in H1 as (r1 & ->).
      apply in_flat_map in H2 as (e2 & Hin2 & H2).
      apply rglob_node_descendant, descendant_below_child in H2 as (r2 & E).
      apply app_inv_head in E. injection E as E _.
      apply (existsb_eqb_false _ _ Hn). rewrite E. now apply in_map.
    + apply IHes; [assumption| |].
      * intros e' He'. apply IH. now right.
      * intros e' He'. apply Hw. now right.
Qed.

Lemma rglob_NoDup fs scan_path : wf fs = true -> NoDup (rglob fs scan_path).
Proof.
  intros Hw. unfold rglob. destruct (lookup fs scan_path) as [n|] eqn:Hl; [|constructor].
  apply rglob_node_NoDup. now apply (lookup_wf fs scan_path).
Qed.

Lemma found_paths_app q1 q2 : found_paths (q1 ++ q2) = found_paths q1 ++ found_paths q2.
Proof. unfold found_paths. apply omap_app. Qed.

Lemma fold_found_once fs todo : forall done st,
  NoDup (done ++ todo) ->
  NoDup (found_paths (queue st)) ->
  (forall p, In p (found_paths (queue st)) -> In p done) ->
  NoDup (found_paths (queue (fold_left (scan_entry fs) todo st))).
Proof.
  induction todo as [|x todo IH]; intros done st Hnd Hq Hsub; [assumption|].
  cbn [fold_left].
  replace (done ++ x :: todo) with ((done ++ [x]) ++ todo) in Hnd by now rewrite <- app_assoc.
  apply (IH (done ++ [x])); [assumption| |].
  - destruct (scan_entry_puts fs st x) as [E|(k & sz & mt & E & _)];
      rewrite E; [assumption|].
    cbn [emit queue]. rewrite found_paths_app. cbn.
    apply NoDup_app. split; [assumption|split; [|apply NoDup_singleton]].
    intros p Hp Hx. apply list_elem_of_singleton in Hx as ->.
    apply list_elem_of_In, Hsub in Hp.
    apply NoDup_app in Hnd as (Hnd & _ & _). apply NoDup_app in Hnd as (_ & Hnd & _).
    apply (Hnd x); [now apply list_elem_of_In|]. now apply list_elem_of_singleton.
  - intros p Hp.
    destruct (scan_entry_puts fs st x) as [E|(k & sz & mt & E & _)];
      rewrite E in Hp.
    + apply in_app_iff. left. now apply Hsub.
    + cbn [emit queue] in Hp. rewrite found_paths_app in Hp.
      apply in_app_iff in Hp as [Hp|[<-|[]]]; apply in_app_iff; [left; now apply Hsub|].
      right. now left.
Qed.

(** X2.  In a file system where no directory lists a name twice, a
    scan, aborted or not, puts at most one [found_item] for a path. *)
Theorem found_item_once_per_path fs abort scan_path :
  wf fs = true -> NoDup (found_paths (scanner fs abort scan_path)).
Proof.
  intros Hw. destruct (scanner_prefix fs abort scan_path) as (j & Hj). cbv zeta in Hj.
  assert (H : NoDup (found_paths (queue
              (fold_left (scan_entry fs) (take j (rglob fs scan_path)) init_state)))).
  { apply (fold_found_once fs _ []); simpl; [|constructor|contradiction].
    assert (Hn := rglob_NoDup fs scan_path Hw).
    rewrite <- (take_drop j (rglob fs scan_path)) in Hn. now apply NoDup_app in Hn as (Hn & _). }
  destruct Hj as [-> | ->]; [assumption|].
  rewrite found_paths_app. cbn. now rewrite app_nil_r.
Qed.

Lemma found_item_once_per_path_witness :
  NoDup (found_paths (scanner denied_fs never [])).
Proof. apply (found_item_once_per_path denied_fs never []). reflexivity. Defined.

(** *** Nothing that qualifies is left out *)












(** *** A scan root that is no directory *)



(** *** The extension rules *)

Lemma rfind_dot_substring n : forall i,
  rfind_dot n = Some i ->
  exists s, String.substring i (String.length n - i) n = String "."%char s.
Proof.
  induction n as [|c n IH]; intros i; cbn [rfind_dot]; [discriminate|].
  destruct (rfind_dot n) as [i'|].
  - intros [= <-]. destruct (IH i' eq_refl) as (s & Hs). exists s. exact Hs.
  - destruct (Ascii.eqb c "."%char) eqn:E; [|discriminate]. intros [= <-].
    apply Ascii.eqb_eq in E. subst c. cbn. eexists. reflexivity.
Qed.

(** [path.suffix] is empty or starts with a dot. *)
Lemma suffix_shape p : suffix p = "" \/ exists s, suffix p = String "."%char s.
Proof.
  unfold suffix. destruct (rfind_dot (name p)) as [i|] eqn:E; [|now left].
  destruct ((0 <? i)%nat && (i <? String.length (name p) - 1)%nat)%bool; [|now left].
  right. now apply rfind_dot_substring.
Qed.

(** X4.  The suffix test of the scan accepts exactly the suffixes that
    are [.log], [.tmp] or [.cache] up to case.  The entry [temp] of
    the extension tuple has no leading dot and is never equal to a
    suffix: no file is junk by that rule. *)
Theorem extension_rule_temp_is_dead (p : path) :
  (suffix_is_junk p = true <->
   lower (suffix p) = ".log" \/ lower (suffix p) = ".tmp" \/ lower (suffix p) = ".cache") /\
  String.eqb (lower (suffix p)) (lower "temp") = false.
Proof.
  assert (Ht : String.eqb (lower (suffix p)) (lower "temp") = false).
  { destruct (suffix_shape p) as [->|(s & ->)]; reflexivity. }
  split; [|exact Ht].
  unfold suffix_is_junk. cbn [extensions JUNK_FILES List.map existsb].
  rewrite Ht. rewrite !orb_true_iff, !String.eqb_eq.
  change (lower ".log") with ".log". change (lower ".tmp") with ".tmp".
  change (lower ".cache") with ".cache". intuition discriminate.
Qed.

End ScanFacts.

(** ** More on the deletion pass *)

Module CleanFacts.
Import Scanner Cleaner.

(** The paths the [clean_error] messages of a queue name. *)
Definition error_paths (q : list message) : list path :=
  omap (fun m => match m with clean_error p _ => Some p | _ => None end) q.

Definition is_clean_error (m : message) : bool :=
  match m with clean_error _ _ => true | _ => false end.

Lemma messages_app tr1 tr2 : messages (tr1 ++ tr2) = messages tr1 ++ messages tr2.
Proof. unfold messages. apply omap_app. Qed.

Lemma error_paths_app q1 q2 : error_paths (q1 ++ q2) = error_paths q1 ++ error_paths q2.
Proof. unfold error_paths. apply omap_app. Qed.

Lemma item_trace_messages delay d path tr d' :
  item_trace delay d path tr d' ->
  messages tr = [] \/ exists err, messages tr = [clean_error path err].
Proof. intros []; cbn; eauto. Qed.

Lemma pass_trace_messages delay d items tr d' :
  pass_trace delay d items tr d' ->
  Forall (fun m => is_clean_error m = true) (messages tr) /\
  error_paths (messages tr) `sublist_of` items.
Proof.
  induction 1 as [|d path rest tr d1 tr' d2 Hi _ [IH1 IH2]]; [split; constructor|].
  rewrite messages_app, error_paths_app.
  destruct (item_trace_messages _ _ _ _ _ Hi) as [->|(err & ->)]; cbn.
  - split; [assumption|]. now apply sublist_cons.
  - split; [constructor; [reflexivity|assumption]|]. now apply sublist_skip.
Qed.

(** X5.  Whatever the abort checks answer, the queue of a deletion
    pass holds [clean_error] messages and then one [clean_done], and
    the paths the errors name are, in order, paths of the list: no
    path is reported twice for one place in the list and none that was
    not asked for. *)
Theorem clean_queue_shape (d : node) (abort : nat -> bool) (items : list path) :
  exists errs,
    messages (trace (cleaner d abort items)) = errs ++ [clean_done] /\
    Forall (fun m => is_clean_error m = true) errs /\
    error_paths errs `sublist_of` items.
Proof.
  destruct (cleaner_prefix d abort items) as (j & tr & d' & Hp & ->).
  destruct (pass_trace_messages _ _ _ _ _ Hp) as [H1 H2].
  exists (messages tr). cbn [trace]. rewrite messages_app. repeat split; try assumption.
  transitivity (take j items); [assumption|apply sublist_take].
Qed.

(** *** The pass touches the listed paths only *)

(** Neither path is a prefix of the other. *)
Definition apart (p q : path) : Prop := ~ p `prefix_of` q /\ ~ q `prefix_of` p.

Lemma apart_cons c p q : apart (c :: p) (c :: q) -> apart p q.
Proof. intros [H1 H2]. split; intros H; [apply H1|apply H2]; now apply prefix_cons. Qed.

Lemma assoc_other c c' (es : list (string * node)) (g : string * node -> option (string * node)) :
  c <> c' ->
  (forall e, fst e <> c -> g e = Some e) ->
  (forall e e', fst e = c -> g e = Some e' -> fst e' = c) ->
  assoc c' (omap g es) = assoc c' es.
Proof.
  intros Hne Hother Hsame. induction es as [|e es IH]; [reflexivity|].
  cbn [omap list_omap assoc].
  destruct (String.eqb (fst e) c) eqn:E.
  - apply String.eqb_eq in E.
    assert (E' : String.eqb (fst e) c' = false) by (apply String.eqb_neq; congruence).
    rewrite E'. destruct (g e) as [e'|] eqn:G; [|assumption].
    cbn [assoc]. assert (fst e' = c) by now apply (Hsame e).
    assert (E'' : String.eqb (fst e') c' = false) by (apply String.eqb_neq; congruence).
    now rewrite E''.
  - apply String.eqb_neq in E. rewrite (Hother e E). cbn [assoc]. now rewrite IH.
Qed.

Lemma alter_lookup_apart f p : forall q fs,
  apart p q -> lookup (alter f p fs) q = lookup fs q.
Proof.
  induction p as [|c p IH]; intros q fs Ha.
  - destruct Ha as [Ha _]. exfalso. apply Ha, prefix_nil.
  - destruct q as [|c' q]; [destruct Ha as [_ Ha]; exfalso; apply Ha, prefix_nil|].
    destruct fs as [a|a es]; [reflexivity|].
    destruct (String.eqb c c') eqn:E.
    + apply String.eqb_eq in E. subst c'. apply apart_cons in Ha.
      destruct p as [|c2 p]; [destruct Ha as [Ha _]; exfalso; apply Ha, prefix_nil|].
      rewrite alter_inner, !lookup_cons_Dir, assoc_altered.
      destruct (assoc c es) as [n'|]; [|reflexivity]. cbn [option_map]. now apply IH.
    + apply String.eqb_neq in E. rewrite !lookup_cons_Dir.
      destruct p as [|c2 p]; [rewrite alter_last|rewrite alter_inner];
        rewrite lookup_cons_Dir; (rewrite (assoc_other c c'); [reflexivity|assumption| |]).
      * intros e He. apply String.eqb_neq in He. now rewrite He.
      * intros e e' He. subst c. rewrite String.eqb_refl.
        destruct (f (snd e)); [|discriminate]. now intros [= <-].
      * intros e He. apply String.eqb_neq in He. now rewrite He.
      * intros e e' He. subst c. rewrite String.eqb_refl. now intros [= <-].
Qed.

Lemma item_trace_apart delay d path tr d' q :
  item_trace delay d path tr d' -> apart path q -> lookup d' q = lookup d q.
Proof.
  intros [] Ha; try reflexivity.
  - now apply alter_lookup_apart.
  - unfold rmtree. rewrite H. now apply alter_lookup_apart.
Qed.

Lemma pass_trace_apart delay d items tr d' q :
  pass_trace delay d items tr d' ->
  (forall item, In item items -> apart item q) ->
  lookup d' q = lookup d q.
Proof.
  induction 1 as [|d path rest tr d1 tr' d2 Hi _ IH]; intros Ha; [reflexivity|].
  rewrite IH by (intros item Hin; apply Ha; now right).
  apply (item_trace_apart _ _ _ _ _ _ Hi). apply Ha. now left.
Qed.

(** X6.  A deletion pass, cancelled or not, leaves alone every path
    that is neither a listed path, nor below one, nor above one: what
    the disk has at such a path after the pass is what it had before. *)
Theorem clean_leaves_other_paths (d : node) (abort : nat -> bool) (items : list path)
    (q : path) :
  (forall item, In item items -> apart item q) ->
  lookup (disk (cleaner d abort items)) q = lookup d q.
Proof.
  intros Ha. destruct (cleaner_prefix d abort items) as (j & tr & d' & Hp & ->).
  cbn [disk]. apply (pass_trace_apart _ _ _ _ _ _ Hp).
  intros item Hin. apply Ha. rewrite <- (take_drop j items). apply in_app_iff. now left.
Qed.

Lemma clean_leaves_other_paths_witness :
  lookup (disk (cleaner locked_fs never [["a"]; ["b"]])) ["c"; "x"] = lookup locked_fs ["c"; "x"].
Proof.
  apply (clean_leaves_other_paths locked_fs never [["a"]; ["b"]] ["c"; "x"]).
  intros item [<-|[<-|[]]]; split; intros [k Hk]; discriminate Hk.
Defined.

(** *** A listed file does not stay on the disk unreported *)

(** [n'] is what is left of the well-formed tree [n] after removals:
    it is well formed, and a regular file it has at a path is the file
    [n] has there. *)
Definition shrunk (n' n : node) : Prop :=
  wf n = true ->
  wf n' = true /\
  forall q a, lookup n' q = Some (File a) -> lookup n q = Some (File a).

Lemma shrunk_refl n : shrunk n n.
Proof. intros Hw. now split. Qed.

Lemma shrunk_trans n1 n2 n3 : shrunk n1 n2 -> shrunk n2 n3 -> shrunk n1 n3.
Proof.
  intros H12 H23 Hw. destruct (H23 Hw) as [Hw2 Hb2]. destruct (H12 Hw2) as [Hw1 Hb1].
  split; [assumption|]. intros q a H. now apply Hb2, Hb1.
Qed.

Lemma not_In_existsb c l : ~ In c l -> existsb (String.eqb c) l = false.
Proof.
  intros H. destruct (existsb (String.eqb c) l) eqn:E; [|reflexivity].
  apply existsb_exists in E as (x & Hx & Ex). apply String.eqb_eq in Ex. now subst x.
Qed.

Section listings.
Variable g : string * node -> option (string * node).
Hypothesis g_name : forall e e', g e = Some e' -> fst e' = fst e.

Lemma In_omap_names es c : In c (List.map fst (omap g es)) -> In c (List.map fst es).
Proof.
  induction es as [|e es IH]; [contradiction|]. cbn [omap list_omap].
  destruct (g e) as [e'|] eqn:G; cbn [List.map]; [|intros H; right; now apply IH].
  intros [<-|H]; [left; symmetry; now apply g_name|right; now apply IH].
Qed.

Lemma distinct_omap es : distinct (List.map fst es) = true -> distinct (List.map fst (omap g es)) = true.
Proof.
  induction es as [|e es IH]; [reflexivity|]. cbn [List.map distinct omap list_omap].
  intros H. apply andb_true_iff in H as [Hn Hd]. apply negb_true_iff in Hn.
  destruct (g e) as [e'|] eqn:G; [|now apply IH].
  cbn [List.map distinct]. apply andb_true_iff. split; [|now apply IH].
  apply negb_true_iff, not_In_existsb. intros Hin. apply In_omap_names in Hin.
  rewrite (g_name e e' G) in Hin. now apply (existsb_eqb_false _ _ Hn).
Qed.

Lemma assoc_omap_Some es c n' :
  assoc c (omap g es) = Some n' -> exists e, In e es /\ fst e = c /\ g e = Some (c, n').
Proof.
  induction es as [|e es IH]; [discriminate|]. cbn [omap list_omap].
  destruct (g e) as [e'|] eqn:G.
  - cbn [assoc]. destruct (String.eqb (fst e') c) eqn:E.
    + intros [= <-]. apply String.eqb_eq in E. exists e. split; [now left|].
      split; [now rewrite <- (g_name e e' G)|]. rewrite G, <- E. now destruct e'.
    + intros H. destruct (IH H) as (e0 & Hin & Hf & Hg). exists e0. split; [now right|auto].
  - intros H. destruct (IH H) as (e0 & Hin & Hf & Hg). exists e0. split; [now right|auto].
Qed.

Lemma dir_shrunk a es :
  (forall e e', In e es -> g e = Some e' -> shrunk (snd e') (snd e)) ->
  shrunk (Dir a (omap g es)) (Dir a es).
Proof.
  intros Hs Hw. apply wf_Dir in Hw as [Hd Hch]. split.
  - cbn [wf]. apply andb_true_iff. split; [now apply distinct_omap|].
    apply forallb_forall. intros e' He'. apply list_elem_of_In in He'.
    apply list_elem_of_omap in He' as (e & He & G). apply list_elem_of_In in He.
    now apply (Hs e e' He G), Hch.
  - intros [|c q] a0; [discriminate|]. rewrite !lookup_cons_Dir.
    destruct (assoc c (omap g es)) as [n'|] eqn:A; [|discriminate].
    apply assoc_omap_Some in A as (e & He & Hf & G). intros Hl.
    rewrite <- Hf, (distinct_assoc es e Hd He).
    now apply (Hs e (c, n') He G (Hch e He)).
Qed.
End listings.

Lemma rmtree_node_shrunk n : forall n', rmtree_node n = Some n' -> shrunk n' n.
Proof.
  induction n as [a|a es IH] using node_ind; intros n'; cbn [rmtree_node].
  - destruct (locked a); [|discriminate]. intros [= <-]. apply shrunk_refl.
  - rewrite List.Forall_forall in IH.
    set (g := fun e : string * node => option_map (pair (fst e)) (rmtree_node (snd e))).
    assert (Hs : shrunk (Dir a (omap g es)) (Dir a es)).
    { apply dir_shrunk.
      - intros e e'. unfold g. destruct (rmtree_node (snd e)); [|discriminate].
        now intros [= <-].
      - intros e e' He. unfold g. destruct (rmtree_node (snd e)) as [n''|] eqn:R; [|discriminate].
        intros [= <-]. now apply (IH e He). }
    destruct (omap g es) as [|e0 es0] eqn:E.
    + destruct (locked a); [|discriminate]. now intros [= <-].
    + now intros [= <-].
Qed.

Lemma alter_shrunk f :
  (forall n n', f n = Some n' -> shrunk n' n) ->
  forall p n, shrunk (alter f p n) n.
Proof.
  intros Hf. induction p as [|c p IH]; intros n; [apply shrunk_refl|].
  destruct n as [a|a es]; [apply shrunk_refl|].
  destruct p as [|c2 p]; [rewrite alter_last|rewrite alter_inner]; apply dir_shrunk.
  - intros e e'. destruct (String.eqb (fst e) c); [|now intros [= <-]].
    destruct (f (snd e)); [|discriminate]. now intros [= <-].
  - intros e e' _. destruct (String.eqb (fst e) c); [|intros [= <-]; apply shrunk_refl].
    destruct (f (snd e)) as [n''|] eqn:F; [|discriminate]. intros [= <-]. now apply Hf.
  - intros e e'. destruct (String.eqb (fst e) c); now intros [= <-].
  - intros e e' _. destruct (String.eqb (fst e) c); intros [= <-]; [apply IH|apply shrunk_refl].
Qed.

Lemma item_trace_shrunk delay d path tr d' : item_trace delay d path tr d' -> shrunk d' d.
Proof.
  intros []; try apply shrunk_refl.
  - apply alter_shrunk. discriminate.
  - unfold rmtree. rewrite H. apply alter_shrunk, rmtree_node_shrunk.
Qed.

Lemma In_messages m tr : In (EPut m) tr -> In m (messages tr).
Proof.
  intros H. apply list_elem_of_In. unfold messages. apply list_elem_of_omap.
  exists (EPut m). split; [now apply list_elem_of_In|reflexivity].
Qed.

Lemma pass_trace_survivor delay d items tr d' :
  pass_trace delay d items tr d' ->
  shrunk d' d /\
  (wf d = true ->
   forall item a, In item items -> item <> [] -> lookup d' item = Some (File a) ->
                  exists err, In (EPut (clean_error item err)) tr).
Proof.
  induction 1 as [|d path rest tr d1 tr' d2 Hi Hp [IHs IHr]].
  - split; [apply shrunk_refl|]. intros _ item a [].
  - assert (Hs1 := item_trace_shrunk _ _ _ _ _ Hi).
    split; [now apply shrunk_trans with d1|].
    intros Hw item a Hin Hne Hl. destruct (Hs1 Hw) as [Hw1 Hb1].
    destruct (IHs Hw1) as [Hw2 Hb2].
    assert (Hrest : In item rest -> exists err, In (EPut (clean_error item err)) (tr ++ tr')).
    { intros Hin'. destruct (IHr Hw1 item a Hin' Hne Hl) as (err & He). exists err.
      apply in_app_iff. now right. }
    destruct Hin as [->|Hin]; [|now apply Hrest].
    apply Hb2 in Hl.
    destruct Hi as [Hm|n Hn Hden|a0 Hf Hden Hlk|a0 Hf Hden Hlk|a0 es0 Hdir Hden].
    + congruence.
    + eexists. apply in_app_iff. left. now left.
    + eexists. apply in_app_iff. left. now left.
    + exfalso. destruct item as [|c p]; [contradiction|].
      assert (U : unlink d (c :: p) = Ok (alter (fun _ => None) (c :: p) d)).
      { unfold unlink. now rewrite Hf, Hlk. }
      apply unlink_removes in U. congruence.
    + apply Hb1 in Hl. congruence.
Qed.

(** X7.  After a deletion pass that was not cancelled, on a disk where
    no directory lists a name twice, a regular file that is still at a
    listed path (other than the root) was reported: the queue holds a
    [clean_error] naming that path.  No listed file is left behind in
    silence. *)
Theorem listed_file_left_is_reported (d : node) (abort : nat -> bool) (items : list path)
    (item : path) (a : attrs) :
  wf d = true ->
  (forall k, (k < length items)%nat -> abort k = false) ->
  In item items -> item <> [] ->
  lookup (disk (cleaner d abort items)) item = Some (File a) ->
  exists err, In (clean_error item err) (messages (trace (cleaner d abort items))).
Proof.
  intros Hw Ha Hin Hne Hl.
  destruct (cleaner_pass_trace d abort items (length items)) as (tr & d' & Hp & E);
    [lia|assumption|lia|].
  rewrite take_ge in Hp by lia. rewrite E in Hl |- *. cbn [disk trace] in *.
  destruct (pass_trace_survivor _ _ _ _ _ Hp) as [_ H].
  destruct (H Hw item a Hin Hne Hl) as (err & He).
  exists err. rewrite messages_app. apply in_app_iff. left. now apply In_messages.
Qed.

Lemma listed_file_left_is_reported_witness :
  exists err, In (clean_error ["b"] err) (messages (trace (cleaner locked_fs never three_items))).
Proof.
  apply (listed_file_left_is_reported locked_fs never three_items ["b"]
           {| size := 20; mtime := 3; stat_denied := false; locked := true |}).
  - reflexivity.
  - reflexivity.
  - right. left. reflexivity.
  - discriminate.
  - vm_compute. reflexivity.
Defined.

End CleanFacts.

(** ** The matcher of revision 250223 ([src/history/250223.py]) *)

Module Revision250223.
Import Str Re Matcher Scanner.

(** [JUNK_FILES] of revision 250223: the folder rule [logs] is not
    there yet. *)
Definition JUNK_FILES_250223 : rule_table := {|
  names :=
    [ PStr ".DS_Store"; PStr "desktop.ini"; PStr "Thumbs.db"; PStr ".bash_history";
      PStr ".zsh_history"; PStr "fish_history"; PStr ".viminfo"; PStr ".localized";
      PStr ".sharkgi"; PStr ".lesshst"; PStr ".python_history"; PRe zcompdump false ];
  extensions := [ ".log"; ".tmp"; "temp"; ".cache" ];
  folders :=
    [ PStr "$RECYCLE.BIN"; PStr "Logs"; PStr "CrashReporter"; PStr "tmp"; PStr "temp";
      PStr "log"; PStr ".Trash"; PStr ".fseventsd"; PStr ".Spotlight-V100";
      PStr ".zsh_sessions"; PStr "System Volume Information"; PStr "Photo Booth Library";
      PStr "Automatically Add to Music.localized"; PStr "Media.localized";
      PStr "Videos Library.tvlibrary"; PStr "网易云音乐"; PRe (word "Cache") true ]
|}.

(** [matches_patterns] of revision 250223: the name is compared as it
    is. *)
Definition matches_patterns_250223 (filename : string) (patterns : list pattern) : bool :=
  existsb
    (fun pattern =>
       match pattern with
       | PStr s => String.eqb s filename
       | PRe r ic => search ic r (chars filename)
       end)
    (List.filter truthy patterns).

(** [root_path.suffix in JUNK_FILES["extensions"]] of revision 250223. *)
Definition suffix_is_junk_250223 (root_path : path) : bool :=
  existsb (String.eqb (suffix root_path)) (extensions JUNK_FILES_250223).

(** Every literal of the pattern is its own lower case. *)
Fixpoint lowercase (r : regex) : bool :=
  match r with
  | Chr a => Ascii.eqb (lower_ascii a) a
  | Cat r1 r2 | Alt r1 r2 => lowercase r1 && lowercase r2
  | Star r1 => lowercase r1
  | Void | Eps | Dot => true
  end.

Lemma lang_lower r s :
  lang false r s -> lowercase r = true -> lang false r (List.map lower_ascii s).
Proof.
  induction 1 as [ |a c E|c E|r1 r2 s1 s2 _ IH1 _ IH2|r1 r2 s0 _ IH|r1 r2 s0 _ IH
                 |r1|r1 s1 s2 _ IH1 _ IH2]; cbn [lowercase List.map]; intros L.
  - constructor.
  - constructor. cbn [chr_eq] in *. apply Ascii.eqb_eq in E. subst c.
    apply Ascii.eqb_eq. apply Ascii.eqb_eq in L. now symmetry.
  - constructor. now rewrite dot_ok_lower.
  - apply andb_true_iff in L as [L1 L2]. rewrite List.map_app. constructor; auto.
  - apply andb_true_iff in L as [L1 L2]. apply LAltL. auto.
  - apply andb_true_iff in L as [L1 L2]. apply LAltR. auto.
  - constructor.
  - rewrite List.map_app. constructor; auto.
Qed.

Lemma search_lowercase r s :
  lowercase r = true -> search false r s = true ->
  search false r (List.map lower_ascii s) = true.
Proof.
  intros L H. apply search_spec in H as (pre & mid & post & -> & Hm).
  apply search_spec. exists (List.map lower_ascii pre), (List.map lower_ascii mid),
    (List.map lower_ascii post).
  split; [now rewrite !List.map_app|now apply lang_lower].
Qed.

Lemma lower_eq s t : s = t -> lower s = lower t.
Proof. now intros ->. Qed.

(** On rule lists: what the older matcher accepts the present one
    accepts, when the present list has every rule of the older one and
    the patterns without [re.IGNORECASE] are written in lower case. *)
Lemma matches_250223_subsumed name older present :
  incl older present ->
  (forall r, In (PRe r false) older -> lowercase r = true) ->
  matches_patterns_250223 name older = true -> matches_patterns name present = true.
Proof.
  intros Hincl Hlow. unfold matches_patterns_250223, matches_patterns.
  rewrite !existsb_exists. intros (rule & Hin & Ht). apply filter_In in Hin as [Hin Htr].
  exists rule. split; [apply filter_In; split; [now apply Hincl|assumption]|].
  destruct rule as [s|r [|]].
  - apply String.eqb_eq in Ht. apply String.eqb_eq. now apply lower_eq.
  - now rewrite chars_lower, search_lower.
  - rewrite chars_lower. apply search_lowercase; [now apply Hlow|assumption].
Qed.

Ltac in_list :=
  repeat match goal with
         | H : In _ (_ :: _) |- _ =>
             let E := fresh "E" in
             destruct H as [E|H];
             [try discriminate E; try (injection E as E); try subst|]
         | H : In _ [] |- _ => destruct H
         end.

(** X8.  Whatever revision 250223 took for junk by its name, its
    folder name or its suffix, the present code takes for junk as
    well: lower-casing the name and the rules, and the added folder
    rule, only add matches. *)
Theorem revision_250223_matches_are_kept (filename : string) (root_path : path) :
  (matches_patterns_250223 filename (names JUNK_FILES_250223) = true ->
   matches_patterns filename (names JUNK_FILES) = true) /\
  (matches_patterns_250223 filename (folders JUNK_FILES_250223) = true ->
   matches_patterns filename (folders JUNK_FILES) = true) /\
  (suffix_is_junk_250223 root_path = true -> suffix_is_junk root_path = true).
Proof.
  split; [|split].
  - apply matches_250223_subsumed; [apply incl_refl|].
    intros r Hin. cbn [names JUNK_FILES_250223] in Hin. in_list. reflexivity.
  - apply matches_250223_subsumed.
    + intros rule Hin. cbn [folders JUNK_FILES_250223] in Hin. cbn [folders JUNK_FILES].
      in_list; simpl; tauto.
    + intros r Hin. cbn [folders JUNK_FILES_250223] in Hin. in_list.
  - unfold suffix_is_junk_250223, suffix_is_junk. rewrite !existsb_exists.
    intros (ext & Hin & He). apply String.eqb_eq in He. exists (lower ext). split.
    + apply in_map. exact Hin.
    + apply String.eqb_eq. now apply lower_eq.
Qed.

Example revision_250223_is_case_sensitive :
  matches_patterns_250223 "thumbs.db" (names JUNK_FILES_250223) = false /\
  matches_patterns "thumbs.db" (names JUNK_FILES) = true.
Proof. split; reflexivity. Qed.

End Revision250223.

(** ** More on the size formatter *)

Module FormatFacts.
Import Cleaner Format.

(** A size below 1024 is rendered in bytes with [.0]. *)
Definition rendered_in_bytes (n : nat) : bool :=
  String.eqb (format_size (Z.of_nat n)) (decimal (Z.of_nat n) ++ ".0 B")%string.

Lemma all_rendered_in_bytes : forallb rendered_in_bytes (seq 0 1024) = true.
Proof. vm_compute. reflexivity. Qed.

(** X9.  A size from 0 to 1023 is rendered as that number of bytes:
    its decimal digits, [.0] and the unit B. *)
Theorem format_size_below_1024 (size : Z) :
  (0 <= size)%Z -> (size < 1024)%Z -> format_size size = (decimal size ++ ".0 B")%string.
Proof.
  intros H0 H1.
  assert (Hin : In (Z.to_nat size) (seq 0 1024)) by (apply in_seq; lia).
  assert (H := proj1 (forallb_forall _ _) all_rendered_in_bytes _ Hin).
  unfold rendered_in_bytes in H. rewrite Z2Nat.id in H by assumption.
  now apply String.eqb_eq.
Qed.

Lemma format_size_below_1024_witness : format_size 1023 = (decimal 1023 ++ ".0 B")%string.
Proof. apply (format_size_below_1024 1023); lia. Defined.



End FormatFacts.

(** ** Cleaning what a scan found

    The presentation layer hands [Core.clean] paths of [found_item]
    messages: all of them ([CLI.check_queue]) or the ones left checked
    ([GUI.clean_files]). *)

Module ScanThenClean.
Import Scanner ScanFacts Cleaner CleanFacts.

(** The pass removed the path or reported it. *)
Definition handled (item : path) (tr : list effect) : Prop :=
  In (EUnlink item) tr \/ In (ERmtree item) tr \/
  exists err, In (EPut (clean_error item err)) tr.

Lemma found_paths_In p out :
  In p (found_paths out) -> exists k sz mt, In (found_item p k sz mt) out.
Proof.
  intros H. apply list_elem_of_In in H. unfold found_paths in H.
  apply list_elem_of_omap in H as (m & Hm & E). apply list_elem_of_In in Hm.
  destruct m as [p' k sz mt| | |]; try discriminate. injection E as ->. now exists k, sz, mt.
Qed.

Lemma found_justified fs abort scan_path p k sz mt :
  In (found_item p k sz mt) (scanner fs abort scan_path) ->
  justified fs (found_item p k sz mt).
Proof.
  intros Hin. destruct (scanner_queue fs abort scan_path _ Hin eq_refl) as (j & Hj).
  now destruct (fold_justified fs (take j (rglob fs scan_path)) init_state
                  ltac:(intros m []) _ Hj).
Qed.

Lemma stat_test_true test fs p : stat_test test fs p = Ok true -> exists n, lookup fs p = Some n.
Proof.
  unfold stat_test, stat. destruct (lookup fs p) as [n|]; [now exists n|discriminate].
Qed.

Lemma is_file_true fs p : is_file fs p = Ok true -> exists a, lookup fs p = Some (File a).
Proof.
  unfold is_file, stat_test, stat. destruct (lookup fs p) as [[a|a es]|]; try discriminate.
  - now exists a.
  - destruct (stat_denied (attrs_of (Dir a es))); discriminate.
Qed.

Lemma found_on_disk fs abort scan_path p k sz mt :
  In (found_item p k sz mt) (scanner fs abort scan_path) ->
  (exists n, lookup fs p = Some n) /\
  (k = KFile -> exists a, lookup fs p = Some (File a)).
Proof.
  intros Hin. apply found_justified in Hin. destruct k; cbn in Hin.
  - destruct Hin as (_ & Hf & _). split; [now apply (stat_test_true _ _ _ Hf)|].
    intros _. now apply is_file_true.
  - destruct Hin as (Hd & _). split; [now apply (stat_test_true _ _ _ Hd)|discriminate].
Qed.

Lemma lookup_below_file fs p a r : lookup fs p = Some (File a) -> r <> [] -> lookup fs (p ++ r) = None.
Proof.
  intros Hl Hr. rewrite lookup_app, Hl. destruct r; [contradiction|reflexivity].
Qed.

(** No found item lies below another one. *)
Lemma found_not_below_found fs abort scan_path p k sz mt q k' sz' mt' :
  wf fs = true ->
  In (found_item p k sz mt) (scanner fs abort scan_path) ->
  In (found_item q k' sz' mt') (scanner fs abort scan_path) ->
  ~ descendant p q.
Proof.
  intros Hw Hp Hq D. destruct k.
  - destruct (found_on_disk _ _ _ _ _ _ _ Hp) as [_ Hf]. destruct (Hf eq_refl) as (a & Hl).
    destruct (found_on_disk _ _ _ _ _ _ _ Hq) as [(n & Hn) _].
    destruct D as (r & Hr & ->). rewrite (lookup_below_file fs p a r Hl Hr) in Hn. discriminate.
  - destruct (scanner_prefix fs abort scan_path) as (j & Hj). cbv zeta in Hj.
    set (st := fold_left (scan_entry fs) (take j (rglob fs scan_path)) init_state) in *.
    assert (Hpr : pruned fs st []).
    { apply pruned_fold; [apply take_sorted, rglob_sorted, Hw|apply pruned_init]. }
    assert (Hin : forall m, In m (scanner fs abort scan_path) -> is_found m = true ->
                            In m (queue st)).
    { intros m H Hm. destruct Hj as [Hj|Hj]; rewrite Hj in H; [assumption|].
      apply in_app_iff in H as [H|[<-|[]]]; [assumption|discriminate]. }
    destruct Hpr as [_ Hpast Hfolder].
    assert (Hp' := Hin _ Hp eq_refl). assert (Hq' := Hin _ Hq eq_refl).
    destruct (Hfolder p sz mt Hp') as (Hd & _).
    apply (Hpast q k' sz' mt' p Hq' Hd D).
Qed.

Lemma prefix_descendant (p q : path) : p `prefix_of` q -> p = q \/ descendant p q.
Proof.
  intros [r ->]. destruct r as [|c r]; [left; now rewrite app_nil_r|].
  right. now exists (c :: r).
Qed.

Lemma found_apart fs abort scan_path p q :
  wf fs = true ->
  In p (found_paths (scanner fs abort scan_path)) ->
  In q (found_paths (scanner fs abort scan_path)) ->
  p <> q -> apart p q.
Proof.
  intros Hw Hp Hq Hne.
  apply found_paths_In in Hp as (k & sz & mt & Hp).
  apply found_paths_In in Hq as (k' & sz' & mt' & Hq).
  split; intros H; apply prefix_descendant in H as [H|H]; try congruence.
  - now apply (found_not_below_found _ _ _ _ _ _ _ _ _ _ _ Hw Hp Hq).
  - now apply (found_not_below_found _ _ _ _ _ _ _ _ _ _ _ Hw Hq Hp).
Qed.

Lemma item_trace_handled delay d path tr d' :
  item_trace delay d path tr d' -> lookup d path <> None -> handled path tr.
Proof.
  intros [] Hl; unfold handled; cbn.
  - contradiction.
  - right. right. eauto.
  - right. right. eauto.
  - now left; left.
  - right. left. now left.
Qed.

Lemma handled_app_l item tr tr' : handled item tr -> handled item (tr ++ tr').
Proof.
  intros [H|[H|(err & H)]]; [left|right; left|right; right; exists err];
    apply in_app_iff; now left.
Qed.

Lemma handled_app_r item tr tr' : handled item tr' -> handled item (tr ++ tr').
Proof.
  intros [H|[H|(err & H)]]; [left|right; left|right; right; exists err];
    apply in_app_iff; now right.
Qed.

Lemma pass_trace_handles delay d items tr d' :
  pass_trace delay d items tr d' ->
  NoDup items ->
  (forall p q, In p items -> In q items -> p <> q -> apart p q) ->
  (forall item, In item items -> lookup d item <> None) ->
  forall item, In item items -> handled item tr.
Proof.
  induction 1 as [|d path rest tr d1 tr' d2 Hi _ IH]; intros Hnd Hap Hon item Hin;
    [contradiction|].
  apply NoDup_cons in Hnd as [Hnotin Hnd].
  assert (Hne : forall q, In q rest -> path <> q).
  { intros q Hq ->. apply Hnotin. now apply list_elem_of_In. }
  destruct Hin as [<-|Hin].
  - apply handled_app_l, (item_trace_handled _ _ _ _ _ Hi). apply Hon. now left.
  - apply handled_app_r, IH; try assumption.
    + intros p q Hp Hq. apply Hap; now right.
    + intros q Hq. rewrite (item_trace_apart _ _ _ _ _ q Hi).
      * apply Hon. now right.
      * apply Hap; [now left|now right|now apply Hne].
Qed.

(** X11.  When the paths handed to a deletion pass are, without
    repetition, paths of [found_item] messages of a scan of the same
    disk (no directory of which lists a name twice), and the pass is
    not cancelled, every one of them is still on the disk when its
    turn comes: it is unlinked, given to [rmtree], or reported by a
    [clean_error], and none is skipped as missing.  Removing one found
    item never removes another, since the scan reports nothing below a
    folder it reported. *)
Theorem found_items_are_all_handled (d : node) (scan_abort clean_abort : nat -> bool)
    (scan_path : path) (items : list path) (item : path) :
  wf d = true ->
  NoDup items ->
  (forall p, In p items -> In p (found_paths (scanner d scan_abort scan_path))) ->
  (forall k, (k < length items)%nat -> clean_abort k = false) ->
  In item items ->
  handled item (trace (cleaner d clean_abort items)).
Proof.
  intros Hw Hnd Hfound Ha Hin.
  destruct (cleaner_pass_trace d clean_abort items (length items)) as (tr & d' & Hp & ->);
    [lia|assumption|lia|].
  rewrite take_ge in Hp by lia. cbn [trace]. apply handled_app_l.
  apply (pass_trace_handles _ _ _ _ _ Hp Hnd); [| |assumption].
  - intros p q Hp' Hq'. apply (found_apart d scan_abort scan_path); auto.
  - intros p Hp'. apply Hfound, found_paths_In in Hp' as (k & sz & mt & Hp').
    destruct (found_on_disk _ _ _ _ _ _ _ Hp') as [(n & ->) _]. discriminate.
Qed.

Lemma found_items_are_all_handled_witness :
  handled ["a"; "Logs"]
    (trace (cleaner scenario_fs never (found_paths (scanner scenario_fs never [])))).
Proof.
  apply (found_items_are_all_handled scenario_fs never never []
           (found_paths (scanner scenario_fs never [])) ["a"; "Logs"]).
  - reflexivity.
  - vm_compute. apply NoDup_cons. split; [|apply NoDup_singleton].
    intros H%list_elem_of_singleton. discriminate H.
  - intros p H. exact H.
  - reflexivity.
  - vm_compute. right. left. reflexivity.
Defined.

Example scan_then_clean_scenario :
  cleaner scenario_fs never (found_paths (scanner scenario_fs never [])) =
    {| disk := Dir (plain 0 1) [ ("a", Dir (plain 0 2) [ ("keep.txt", File (plain 7 6)) ]) ];
       trace := [ EUnlink ["a"; ".DS_Store"]; ESleep (PyFloat 0.75%float);
                  ERmtree ["a"; "Logs"]; ESleep (PyFloat 0.75%float); EPut clean_done ] |}.
Proof. vm_compute. reflexivity. Qed.

End ScanThenClean.
